(** * proxy-wrapper.py: a local forward proxy that authenticates upstream

    A shallow embedding of [src/setup/proxy-wrapper.py] and the properties of
    its connection-handling engine.

    Conventions of the embedding.
    - A Python [bytes] value is a [string]: one [ascii] per byte.
    - A Python [str] value is held as its UTF-8 encoding, so [encode()] is
      the identity and [decode('utf-8', errors='ignore')] is [decode_ignore],
      which drops every byte that is not part of a well-formed UTF-8
      sequence.  On well-formed UTF-8 the operations the code applies to
      text ([split('\r\n')], [startswith], [in], [join]) are the byte-wise
      ones, because no byte of a multi-byte sequence is below 128;
      [split()] cuts at the white space of [str.isspace], which has
      characters outside ASCII ([space_width]).
    - Sockets are scripted: the world holds, for each socket, what the
      successive [recv] calls will meet, and how many [sendall] calls
      succeed before one raises.  A peer can deliver bytes, fail, or stay
      connected and silent; the upstream socket has a time-out of 30
      seconds, the client socket has none.  Everything the code does to the
      outside is appended to a trace of events.
    - [print] and [traceback.print_exc] are not modelled. *)

From Stdlib Require Import Bool List Arith NArith ZArith Lia.
From Stdlib Require Import Ascii String.
Import ListNotations.

Local Open Scope list_scope.
Local Open Scope string_scope.

(** ** Byte strings *)

Definition CR : ascii := "013"%char.
Definition LF : ascii := "010"%char.
Definition CRLF : string := String CR (String LF EmptyString).
Definition CRLFCRLF : string := CRLF ++ CRLF.

(** Python truthiness of a [str] or [bytes] value: [if s:]. *)
Definition truthy (s : string) : bool :=
  match s with
  | EmptyString => false
  | String _ _ => true
  end.

(** [s.startswith(p)]. *)
Fixpoint startswith (p s : string) : bool :=
  match p with
  | EmptyString => true
  | String a p' =>
      match s with
      | EmptyString => false
      | String b s' => Ascii.eqb a b && startswith p' s'
      end
  end.

(** [needle in hay] on [str] and [bytes]. *)
Fixpoint contains (needle hay : string) : bool :=
  startswith needle hay ||
  match hay with
  | EmptyString => false
  | String _ rest => contains needle rest
  end.

(** The first piece of a split grows by one character. *)
Definition cons_head (c : ascii) (pieces : list string) : list string :=
  match pieces with
  | [] => [String c EmptyString]
  | h :: t => String c h :: t
  end.

(** [s.split('\r\n')]: scan left to right, cut at every CR LF. *)
Fixpoint split_crlf (s : string) : list string :=
  match s with
  | EmptyString => [EmptyString]
  | String c rest =>
      match rest with
      | EmptyString => [String c EmptyString]
      | String d rest' =>
          if Ascii.eqb c CR && Ascii.eqb d LF
          then EmptyString :: split_crlf rest'
          else cons_head c (split_crlf rest)
      end
  end.

(** ['\r\n'.join(lines)]. *)
Fixpoint join_crlf (lines : list string) : string :=
  match lines with
  | [] => EmptyString
  | [l] => l
  | l :: rest => l ++ CRLF ++ join_crlf rest
  end.

(** [s.split('\r\n')[0]]; the split is never empty. *)
Definition first_line (s : string) : string := hd EmptyString (split_crlf s).

(** The ASCII characters [str.split()] treats as white space:
    TAB, LF, VT, FF, CR, FS, GS, RS, US and the space. *)
Definition is_space (c : ascii) : bool :=
  let n := nat_of_ascii c in
  ((9 <=? n)%nat && (n <=? 13)%nat) || ((28 <=? n)%nat && (n <=? 32)%nat).

(** The byte [c] lies in [lo..hi]. *)
Definition byte_in (lo hi : nat) (c : ascii) : bool :=
  let n := nat_of_ascii c in (lo <=? n)%nat && (n <=? hi)%nat.

Definition byte_is (n : nat) (c : ascii) : bool := (nat_of_ascii c =? n)%nat.

(** The white space character at the head of the text [s], as the number of
    bytes it takes, or 0 when [s] does not begin with white space.  Beyond
    ASCII, [str.isspace] holds of U+0085, U+00A0, U+1680, U+2000 to U+200A,
    U+2028, U+2029, U+202F, U+205F and U+3000. *)
Definition space_width (s : string) : nat :=
  match s with
  | EmptyString => 0
  | String a r1 =>
      if is_space a then 1
      else
        match r1 with
        | EmptyString => 0
        | String b r2 =>
            if byte_is 194 a && (byte_is 133 b || byte_is 160 b) then 2
            else
              match r2 with
              | EmptyString => 0
              | String c _ =>
                  if (byte_is 225 a && byte_is 154 b && byte_is 128 c)
                     || (byte_is 226 a && byte_is 128 b &&
                         (byte_in 128 138 c || byte_in 168 169 c ||
                          byte_is 175 c))
                     || (byte_is 226 a && byte_is 129 b && byte_is 159 c)
                     || (byte_is 227 a && byte_is 128 b && byte_is 128 c)
                  then 3
                  else 0
              end
        end
  end.

(** [s.split()]: cut at runs of white space, no empty tokens.  [cur] is the
    token being read, reversed; [skip] counts the bytes still to pass of a
    white space character that takes several. *)
Fixpoint split_ws_aux (cur : list ascii) (skip : nat) (s : string)
  : list string :=
  let flush (k : list string) :=
    match cur with
    | [] => k
    | _ => string_of_list_ascii (rev cur) :: k
    end in
  match s with
  | EmptyString => flush []
  | String c rest =>
      match skip with
      | S n => flush (split_ws_aux [] n rest)
      | O =>
          match space_width s with
          | S n => flush (split_ws_aux [] n rest)
          | O => split_ws_aux (c :: cur) 0 rest
          end
      end
  end.

Definition split_ws (s : string) : list string := split_ws_aux [] 0 s.

(** *** UTF-8 *)

(** A continuation byte, [10xxxxxx]. *)
Definition continuation (c : ascii) : bool := byte_in 128 191 c.

(** The second byte of a sequence that begins with [lead]: a continuation
    byte, in a narrower range after E0 and F0 (no overlong forms), after ED
    (no surrogates) and after F4 (nothing above U+10FFFF). *)
Definition second_byte (lead c : ascii) : bool :=
  if byte_is 224 lead then byte_in 160 191 c
  else if byte_is 237 lead then byte_in 128 159 c
  else if byte_is 240 lead then byte_in 144 191 c
  else if byte_is 244 lead then byte_in 128 143 c
  else continuation c.

(** The length of the well-formed UTF-8 sequence [s] begins with, or 0 when
    it begins with none. *)
Definition sequence_length (s : string) : nat :=
  match s with
  | EmptyString => 0
  | String a r1 =>
      if byte_in 0 127 a then 1
      else
        match r1 with
        | EmptyString => 0
        | String b r2 =>
            if byte_in 194 223 a then (if continuation b then 2 else 0)
            else if negb (second_byte a b) then 0
            else
              match r2 with
              | EmptyString => 0
              | String c r3 =>
                  if negb (continuation c) then 0
                  else if byte_in 224 239 a then 3
                  else if negb (byte_in 240 244 a) then 0
                  else
                    match r3 with
                    | EmptyString => 0
                    | String d _ => if continuation d then 4 else 0
                    end
              end
        end
  end.

(** [b.decode('utf-8', errors='ignore')]: well-formed sequences are kept,
    every other byte is dropped.  [keep] counts the bytes still to copy of
    the sequence being read.  (The decoder reports a malformed sequence as
    its first byte and the continuation bytes that could follow it; none of
    these begins a sequence, so dropping them one at a time is the same.) *)
Fixpoint decode_ignore_aux (keep : nat) (s : string) : string :=
  match s with
  | EmptyString => EmptyString
  | String c rest =>
      match keep with
      | S n => String c (decode_ignore_aux n rest)
      | O =>
          match sequence_length s with
          | S n => String c (decode_ignore_aux n rest)
          | O => decode_ignore_aux 0 rest
          end
      end
  end.

Definition decode_ignore (s : string) : string := decode_ignore_aux 0 s.

(** [l.insert(i, x)] with Python's index rules: a negative index counts from
    the end, and the result is clamped to [0, len(l)]. *)
Definition py_insert {A} (i : Z) (x : A) (l : list A) : list A :=
  let n := Z.of_nat (List.length l) in
  let j := if (i <? 0)%Z then Z.max 0 (n + i) else Z.min n i in
  firstn (Z.to_nat j) l ++ x :: skipn (Z.to_nat j) l.

(** ** base64.b64encode (RFC 4648, standard alphabet, padded) *)

Definition b64_alphabet : string :=
  "ABCDEFGHIJKLMNOPQRSTUVWXYZabcdefghijklmnopqrstuvwxyz0123456789+/".

Definition b64_char (n : N) : ascii :=
  match String.get (N.to_nat n) b64_alphabet with
  | Some c => c
  | None => "="%char
  end.

Definition sextet (n : N) (shift : N) : ascii :=
  b64_char (N.land (N.shiftr n shift) 63).

Fixpoint b64encode (s : string) : string :=
  match s with
  | EmptyString => EmptyString
  | String a EmptyString =>
      let n := N.shiftl (N_of_ascii a) 16 in
      String (sextet n 18) (String (sextet n 12) "==")
  | String a (String b EmptyString) =>
      let n := N.lor (N.shiftl (N_of_ascii a) 16) (N.shiftl (N_of_ascii b) 8) in
      String (sextet n 18) (String (sextet n 12) (String (sextet n 6) "="))
  | String a (String b (String c rest)) =>
      let n := N.lor (N.lor (N.shiftl (N_of_ascii a) 16)
                            (N.shiftl (N_of_ascii b) 8)) (N_of_ascii c) in
      String (sextet n 18) (String (sextet n 12)
        (String (sextet n 6) (String (sextet n 0) (b64encode rest))))
  end.

(** ** ProxyHandler.__init__ *)

(** What [urlparse] makes of the upstream proxy URL: the four attributes the
    constructor reads.  Each is [None] when the URL does not have the part. *)
Record parsed_url := {
  hostname : option string;
  port : option Z;
  username : option string;
  password : option string
}.

(** [if x:] for an [Optional[str]]. *)
Definition truthy_opt (x : option string) : bool :=
  match x with
  | Some s => truthy s
  | None => false
  end.

Record ProxyHandler := {
  upstream_host : option string;
  upstream_port : Z;
  auth_header : option string
}.

(** [parsed.port or 3128] *)
Definition port_or_default (p : option Z) : Z :=
  match p with
  | Some n => if (n =? 0)%Z then 3128%Z else n
  | None => 3128%Z
  end.

Definition init (parsed : parsed_url) : ProxyHandler :=
  {| upstream_host := hostname parsed;
     upstream_port := port_or_default (port parsed);
     auth_header :=
       match username parsed, password parsed with
       | Some u, Some p =>
           if truthy u && truthy p
           then Some ("Basic " ++ b64encode (u ++ ":" ++ p))
           else None
       | _, _ => None
       end |}.

(** ** The world of one connection *)

(** The two sockets a handler owns. *)
Inductive side := Client | Upstream.

(** What one [recv(4096)] call meets: bytes (the empty string is what [recv]
    returns at end of stream; a script that has run out is at end of stream
    too), an error, or a peer that stays connected and sends nothing.  In a
    real run an entry holds at most 4096 bytes; nothing below depends on
    that. *)
Inductive recv_event :=
| RData (d : string)
| RErr
| RWait.

(** What one [select.select(sockets, [], sockets, 30)] call does: which of
    the two sockets come back readable, whether the exceptional list is
    non-empty, or the call raises.  [Ready false false false] is the
    time-out: 30 seconds went by with nothing to report. *)
Inductive select_event :=
| Ready (client_readable upstream_readable exceptional : bool)
| SelErr.

(** What the handler does to the outside, in order. *)
Inductive event :=
| EConnect (host : option string) (port : Z)
| ESend (s : side) (d : string)
| ESelect
| EClose (s : side)
| EAcquire
| ERelease.

Record world := {
  client_rx : list recv_event;
  upstream_rx : list recv_event;
  client_tx : option nat;
  upstream_tx : option nat;
  dial_ok : bool;
  selects : list select_event;
  trace : list event
}.

Definition rx (s : side) (w : world) : list recv_event :=
  match s with
  | Client => client_rx w
  | Upstream => upstream_rx w
  end.

Definition tx (s : side) (w : world) : option nat :=
  match s with
  | Client => client_tx w
  | Upstream => upstream_tx w
  end.

Definition set_rx (s : side) (l : list recv_event) (w : world) : world :=
  {| client_rx := match s with Client => l | Upstream => client_rx w end;
     upstream_rx := match s with Client => upstream_rx w | Upstream => l end;
     client_tx := client_tx w;
     upstream_tx := upstream_tx w;
     dial_ok := dial_ok w;
     selects := selects w;
     trace := trace w |}.

Definition set_tx (s : side) (b : option nat) (w : world) : world :=
  {| client_rx := client_rx w;
     upstream_rx := upstream_rx w;
     client_tx := match s with Client => b | Upstream => client_tx w end;
     upstream_tx := match s with Client => upstream_tx w | Upstream => b end;
     dial_ok := dial_ok w;
     selects := selects w;
     trace := trace w |}.

Definition set_selects (l : list select_event) (w : world) : world :=
  {| client_rx := client_rx w;
     upstream_rx := upstream_rx w;
     client_tx := client_tx w;
     upstream_tx := upstream_tx w;
     dial_ok := dial_ok w;
     selects := l;
     trace := trace w |}.

Definition emit (e : event) (w : world) : world :=
  {| client_rx := client_rx w;
     upstream_rx := upstream_rx w;
     client_tx := client_tx w;
     upstream_tx := upstream_tx w;
     dial_ok := dial_ok w;
     selects := selects w;
     trace := trace w ++ [e] |}.

(** Worlds are written as the updates that made them, in order. *)
Notation "w |> f" := (f w) (at level 45, left associativity, only parsing).

(** ** A state and exception monad *)

(** A call returns a value, raises an [Exception], or has not returned:
    the fuel given to [relay_data]'s [while True] is used up, or a [recv]
    on the client socket is waiting for a peer that stays silent. *)
Inductive res (A : Type) :=
| Ok (a : A)
| Exn
| OutOfFuel.

Arguments Ok {A} a.
Arguments Exn {A}.
Arguments OutOfFuel {A}.

Definition M (A : Type) : Type := world -> res A * world.

Definition ret {A} (a : A) : M A := fun w => (Ok a, w).

Definition raise {A} : M A := fun w => (Exn, w).

Definition out_of_fuel {A} : M A := fun w => (OutOfFuel, w).

Definition bind {A B} (m : M A) (k : A -> M B) : M B :=
  fun w =>
    match m w with
    | (Ok a, w') => k a w'
    | (Exn, w') => (Exn, w')
    | (OutOfFuel, w') => (OutOfFuel, w')
    end.

Notation "x <- m ;; k" := (bind m (fun x => k))
  (at level 61, m at next level, right associativity).
Notation "m ;; k" := (bind m (fun _ => k))
  (at level 61, right associativity).

(** [try: m except Exception: h] *)
Definition try_except {A} (m h : M A) : M A :=
  fun w =>
    match m w with
    | (Exn, w') => h w'
    | r => r
    end.

(** [try: m finally: f].  A handler that is still running has not reached
    its [finally]. *)
Definition finally {A} (m : M A) (f : M unit) : M A :=
  fun w =>
    match m w with
    | (OutOfFuel, w') => (OutOfFuel, w')
    | (r, w') =>
        match f w' with
        | (Ok _, w'') => (r, w'')
        | (Exn, w'') => (Exn, w'')
        | (OutOfFuel, w'') => (OutOfFuel, w'')
        end
    end.

(** *** Socket operations *)

(** [sock.recv(4096)].  Against a silent peer the upstream socket, which has
    [settimeout(30)], raises [socket.timeout]; the client socket has no
    time-out and the call does not return. *)
Definition recv (s : side) : M string :=
  fun w =>
    match rx s w with
    | [] => (Ok EmptyString, w)
    | RData d :: rest => (Ok d, set_rx s rest w)
    | RErr :: rest => (Exn, set_rx s rest w)
    | RWait :: rest =>
        match s with
        | Client => (OutOfFuel, w)
        | Upstream => (Exn, set_rx s rest w)
        end
    end.

(** [sock.sendall(d)]: it succeeds or it raises.  (A peer that stops
    reading, on which the call would wait, is not part of the script.) *)
Definition sendall (s : side) (d : string) : M unit :=
  fun w =>
    match tx s w with
    | None => (Ok tt, emit (ESend s d) w)
    | Some (S n) => (Ok tt, emit (ESend s d) (set_tx s (Some n) w))
    | Some O => (Exn, w)
    end.

(** [socket.socket(...)], [settimeout(30)] and [connect((host, port))]. *)
Definition dial (host : option string) (p : Z) : M unit :=
  fun w =>
    let w' := emit (EConnect host p) w in
    if dial_ok w then (Ok tt, w') else (Exn, w').

Definition close (s : side) : M unit := fun w => (Ok tt, emit (EClose s) w).

Definition select_ : M (bool * bool * bool) :=
  fun w =>
    match selects w with
    | [] => (Ok (false, false, false), emit ESelect w)
    | Ready rc ru exc :: rest =>
        (Ok (rc, ru, exc), emit ESelect (set_selects rest w))
    | SelErr :: rest => (Exn, emit ESelect (set_selects rest w))
    end.

(** [with semaphore: body], seen from the one handler. *)
Definition with_semaphore {A} (body : M A) : M A :=
  (fun w => (Ok tt, emit EAcquire w)) ;;
  finally body (fun w => (Ok tt, emit ERelease w)).

(** The loop
<<
    while stop not in acc:
        chunk = sock.recv(4096)
        if not chunk: break
        acc += chunk
>>
    by recursion on what the socket still has to deliver.  Without a
    time-out, a peer that stays silent keeps the loop in [recv]. *)
Fixpoint recv_until (stop : string) (acc : string) (l : list recv_event)
  : res string * list recv_event :=
  if contains stop acc then (Ok acc, l)
  else
    match l with
    | [] => (Ok acc, [])
    | RErr :: rest => (Exn, rest)
    | RWait :: rest => (OutOfFuel, l)
    | RData d :: rest =>
        if truthy d then recv_until stop (acc ++ d) rest
        else (Ok acc, rest)
    end.

(** The loop on one of the two sockets.  On the upstream socket the wait
    for a silent peer ends after 30 seconds, with [socket.timeout]. *)
Definition read_until (s : side) (stop acc : string) : M string :=
  fun w =>
    let (r, rest) := recv_until stop acc (rx s w) in
    match s, r with
    | Upstream, OutOfFuel => (Exn, set_rx s (tl rest) w)
    | _, _ => (r, set_rx s rest w)
    end.

(** ** relay_data *)

(** One turn of [for sock in readable]: read from one socket, write to the
    other.  [true] means the function has returned ([if not data: return]). *)
Definition pump (from to : side) : M bool :=
  data <- recv from ;;
  if truthy data then (sendall to data ;; ret false) else ret true.

(** The body of [while True] after the [select] call; [again] is the next
    iteration.  [readable] keeps the order of [sockets]: the client first. *)
Definition relay_turn (again : M unit) (ev : bool * bool * bool) : M unit :=
  let '(rc, ru, exceptional) := ev in
  if exceptional then ret tt
  else
    returned <- (if rc then pump Client Upstream else ret false) ;;
    if returned then ret tt
    else
      returned <- (if ru then pump Upstream Client else ret false) ;;
      if returned then ret tt else again.

Fixpoint relay_data (fuel : nat) : M unit :=
  match fuel with
  | O => out_of_fuel
  | S fuel' => ev <- select_ ;; relay_turn (relay_data fuel') ev
  end.

(** ** ProxyHandler.handle_connect *)

Definition bad_request : string := "HTTP/1.1 400 Bad Request" ++ CRLFCRLF.
Definition bad_gateway : string := "HTTP/1.1 502 Bad Gateway" ++ CRLFCRLF.

Definition proxy_authorization (auth : string) : string :=
  "Proxy-Authorization: " ++ auth.

Definition connect_request (h : ProxyHandler) (target : string) : string :=
  "CONNECT " ++ target ++ " HTTP/1.1" ++ CRLF ++
  "Host: " ++ target ++ CRLF ++
  (if truthy_opt (auth_header h)
   then proxy_authorization (match auth_header h with
                             | Some a => a
                             | None => EmptyString
                             end) ++ CRLF
   else EmptyString) ++
  CRLF.

(** The [except Exception] clause of both request handlers. *)
Definition answer_bad_gateway : M unit :=
  try_except (sendall Client bad_gateway) (ret tt).

Definition handle_connect (fuel : nat) (h : ProxyHandler)
  (request_line : string) : M unit :=
  try_except
    (let parts := split_ws request_line in
     if (List.length parts <? 2)%nat then sendall Client bad_request
     else
       let target := nth 1 parts EmptyString in
       dial (upstream_host h) (upstream_port h) ;;
       sendall Upstream (connect_request h target) ;;
       response <- read_until Upstream CRLFCRLF EmptyString ;;
       sendall Client response ;;
       (if contains "200" (first_line response)
        then relay_data fuel else ret tt) ;;
       close Upstream)
    answer_bad_gateway.

(** ** ProxyHandler.handle_http *)

Definition skipped (line : string) : bool :=
  startswith "Host:" line || startswith "GET" line || startswith "POST" line.

(** The [for line in lines] loop, with its two variables. *)
Fixpoint inject_loop (hdr : string) (lines new_lines : list string)
  (header_added : bool) : list string * bool :=
  match lines with
  | [] => (new_lines, header_added)
  | line :: rest =>
      let new_lines := (new_lines ++ [line])%list in
      if truthy line && negb header_added && contains ":" line
      then
        if skipped line then inject_loop hdr rest new_lines header_added
        else inject_loop hdr rest (py_insert (-1) hdr new_lines) true
      else inject_loop hdr rest new_lines header_added
  end.

Definition inject_lines (hdr : string) (lines : list string) : list string :=
  let (new_lines, header_added) := inject_loop hdr lines [] false in
  if header_added then new_lines else py_insert (-2) hdr new_lines.

(** Lines 116 to 134: what is sent upstream for [request_data]. *)
Definition rewrite_request (h : ProxyHandler) (request_data : string)
  : string :=
  match auth_header h with
  | Some auth =>
      if truthy auth
      then join_crlf (inject_lines (proxy_authorization auth)
                                   (split_crlf (decode_ignore request_data)))
      else request_data
  | None => request_data
  end.

(** The loop
<<
    while True:
        data = upstream_sock.recv(4096)
        if not data: break
        client_sock.sendall(data)
>>
    by recursion on what the upstream socket still has to deliver. *)
Fixpoint forward_response (l : list recv_event) : M unit :=
  match l with
  | [] => ret tt
  | RErr :: rest | RWait :: rest => (fun w => (Exn, set_rx Upstream rest w))
  | RData d :: rest =>
      (fun w => (Ok tt, set_rx Upstream rest w)) ;;
      if truthy d then (sendall Client d ;; forward_response rest)
      else ret tt
  end.

Definition handle_http (h : ProxyHandler) (request_data : string) : M unit :=
  try_except
    (dial (upstream_host h) (upstream_port h) ;;
     sendall Upstream (rewrite_request h request_data) ;;
     (fun w => forward_response (upstream_rx w) w) ;;
     close Upstream)
    answer_bad_gateway.

(** ** handle_client *)

(** The body of [with semaphore:], lines 175 to 185. *)
Definition route (fuel : nat) (h : ProxyHandler)
  (request_data request_line : string) : M unit :=
  if startswith "CONNECT" request_line
  then handle_connect fuel h request_line
  else
    request_data <- read_until Client CRLFCRLF request_data ;;
    handle_http h request_data.

Definition handle_client (fuel : nat) (h : ProxyHandler) : M unit :=
  finally
    (try_except
       (request_data <- read_until Client CRLF EmptyString ;;
        if negb (truthy request_data) then ret tt
        else
          let request_line := decode_ignore (first_line request_data) in
          with_semaphore (route fuel h request_data request_line))
       (ret tt))
    (try_except (close Client) (ret tt)).

(** What has been written to a socket, in order. *)
Fixpoint sent (s : side) (t : list event) : string :=
  match t with
  | [] => EmptyString
  | ESend s' d :: rest =>
      match s, s' with
      | Client, Client | Upstream, Upstream => d ++ sent s rest
      | _, _ => sent s rest
      end
  | _ :: rest => sent s rest
  end.

(** A fresh connection: nothing has happened yet, no [sendall] will fail and
    the upstream proxy accepts the connection. *)
Definition fresh (crx urx : list recv_event) (sel : list select_event)
  : world :=
  {| client_rx := crx; upstream_rx := urx;
     client_tx := None; upstream_tx := None;
     dial_ok := true; selects := sel; trace := [] |}.

Definition example_handler : ProxyHandler :=
  init {| hostname := Some "proxy.example"; port := None;
          username := Some "u"; password := Some "p" |}.

(** The world [w] after a CONNECT negotiation in which nothing failed: the
    upstream proxy was dialled and sent the CONNECT request, [response] was
    read from it leaving [rest] to deliver, and [response] was written to
    the client. *)
Definition negotiated (h : ProxyHandler) (target response : string)
  (rest : list recv_event) (w : world) : world :=
  emit (ESend Client response)
    (set_rx Upstream rest
       (emit (ESend Upstream (connect_request h target))
          (emit (EConnect (upstream_host h) (upstream_port h)) w))).

(** The events a computation adds to the trace of the world it starts in. *)
Definition events_of {A} (m : M A) (w : world) : list event :=
  skipn (List.length (trace w)) (trace (snd (m w))).

(** All the bytes a script delivers, in order. *)
Fixpoint data_of (l : list recv_event) : string :=
  match l with
  | [] => EmptyString
  | RData d :: rest => d ++ data_of rest
  | RErr :: rest | RWait :: rest => data_of rest
  end.

(** A script entry that delivers at least one byte. *)
Definition delivers (e : recv_event) : bool :=
  match e with
  | RData d => truthy d
  | RErr | RWait => false
  end.

(** What [handle_client] holds in [request_data] when its first loop ends
    (nothing if [recv] raised or is still waiting). *)
Definition classifier_buffer (l : list recv_event) : string :=
  match fst (recv_until CRLF EmptyString l) with
  | Ok b => b
  | _ => EmptyString
  end.

(** ** main: the handlers of all connections and the one semaphore *)

(** Events that touch the upstream proxy: dialling it, writing to it,
    the relay's [select] and closing the upstream socket. *)
Definition is_upstream_event (e : event) : bool :=
  match e with
  | EConnect _ _ | ESend Upstream _ | ESelect | EClose Upstream => true
  | _ => false
  end.

Definition is_semaphore_event (e : event) : bool :=
  match e with
  | EAcquire | ERelease => true
  | _ => false
  end.

(** A handler thread: whether it is inside [with semaphore:], and the events
    it has still to perform.  Handlers share nothing but the semaphore, so
    what a thread does is fixed by its own connection. *)
Record thread := {
  holding : bool;
  todo : list event
}.

(** [threading.Semaphore]: the counter, and the threads of [main]'s loop. *)
Record system := {
  value : nat;
  threads : list thread
}.

(** One event of one thread.  [acquire] waits while the counter is zero and
    then decrements it; [release] increments it. *)
Inductive thread_step : nat -> thread -> nat -> thread -> Prop :=
| ts_acquire v b rest :
    thread_step (S v) {| holding := b; todo := EAcquire :: rest |}
                v {| holding := true; todo := rest |}
| ts_release v b rest :
    thread_step v {| holding := b; todo := ERelease :: rest |}
                (S v) {| holding := false; todo := rest |}
| ts_io v b e rest :
    is_semaphore_event e = false ->
    thread_step v {| holding := b; todo := e :: rest |}
                v {| holding := b; todo := rest |}.

(** Threads interleave in any order. *)
Inductive step : system -> system -> Prop :=
| step_thread v v' pre t t' post :
    thread_step v t v' t' ->
    step {| value := v; threads := pre ++ t :: post |}
         {| value := v'; threads := pre ++ t' :: post |}.

Inductive reachable (s : system) : system -> Prop :=
| reach_refl : reachable s s
| reach_step s1 s2 : reachable s s1 -> step s1 s2 -> reachable s s2.

(** [main]: [threading.Semaphore(max_concurrent)] and one [handle_client]
    thread per accepted connection, each with its fuel and its own world. *)
Definition start (max_concurrent : nat) (h : ProxyHandler)
  (conns : list (nat * world)) : system :=
  {| value := max_concurrent;
     threads :=
       map (fun c => {| holding := false;
                        todo := events_of (handle_client (fst c) h) (snd c) |})
           conns |}.

Definition count_holding (s : system) : nat :=
  List.length (filter holding (threads s)).

(** A thread's remaining events agree with whether it holds the semaphore:
    acquire only when not holding, release only when holding, upstream
    events only when holding. *)
Fixpoint bracketed (held : bool) (l : list event) : bool :=
  match l with
  | [] => true
  | EAcquire :: rest => negb held && bracketed true rest
  | ERelease :: rest => held && bracketed false rest
  | e :: rest => (negb (is_upstream_event e) || held) && bracketed held rest
  end.

Definition count_event (p : event -> bool) (l : list event) : nat :=
  List.length (filter p l).

Definition is_acquire (e : event) : bool :=
  match e with EAcquire => true | _ => false end.

Definition is_release (e : event) : bool :=
  match e with ERelease => true | _ => false end.

(** ** Notions the properties are stated with *)

(** Every event [m] adds satisfies [P]. *)
Definition emits {A} (P : event -> Prop) (m : M A) : Prop :=
  forall w, exists l, trace (snd (m w)) = (trace w ++ l)%list /\ Forall P l.

(** The events a request handler can add: it dials the configured upstream
    address only, and it never touches the semaphore. *)
Definition handler_event (h : ProxyHandler) (e : event) : Prop :=
  match e with
  | EConnect host p => host = upstream_host h /\ p = upstream_port h
  | EAcquire | ERelease => False
  | _ => True
  end.

(** A handler either gives up before it asks for the semaphore, or is still
    waiting for the first line, or acquires the semaphore, runs the request
    handler and releases it, or is still inside the request handler. *)
Inductive run_shape (h : ProxyHandler) : res unit -> list event -> Prop :=
| shape_abandoned :
    run_shape h (Ok tt) [EClose Client]
| shape_waiting :
    run_shape h OutOfFuel []
| shape_served body :
    Forall (handler_event h) body ->
    run_shape h (Ok tt) (EAcquire :: body ++ [ERelease; EClose Client])
| shape_relaying body :
    Forall (handler_event h) body ->
    run_shape h OutOfFuel (EAcquire :: body).

Definition held (b : bool) : nat := if b then 1 else 0.

(** The counter and the handlers inside [with semaphore:] add up to the
    number the semaphore was created with. *)
Definition balanced (max_concurrent : nat) (s : system) : Prop :=
  value s + count_holding s = max_concurrent /\
  Forall (fun t => bracketed (holding t) (todo t) = true) (threads s).

(** A stream of [n] one-byte chunks, none of them CR or LF. *)
Definition flood (n : nat) : list recv_event := repeat (RData "a") n.

(** The 30 seconds of [select] going by with nothing to report. *)
Definition timed_out : select_event := Ready false false false.

(** A tunnel that is established and on which nothing arrives after that:
    the first [n] calls of [select] time out, and so do all later ones. *)
Definition idle_tunnel (n : nat) : world :=
  fresh [RData ("CONNECT example.com:443 HTTP/1.1" ++ CRLFCRLF)]
        [RData ("HTTP/1.1 200 Connection established" ++ CRLFCRLF)]
        (repeat timed_out n).

(** What the handler of an idle tunnel has done when its fuel is used up. *)
Definition idle_tunnel_events (fuel : nat) : list event :=
  ([EAcquire; EConnect (Some "proxy.example") 3128%Z;
    ESend Upstream (connect_request example_handler "example.com:443");
    ESend Client ("HTTP/1.1 200 Connection established" ++ CRLFCRLF)]
   ++ repeat ESelect fuel)%list.

(** [m] never reads from the client socket. *)
Definition keeps_client {A} (m : M A) : Prop :=
  forall w, client_rx (snd (m w)) = client_rx w.

(** Events that write nothing to the upstream socket. *)
Definition not_upstream_send (e : event) : Prop :=
  match e with
  | ESend Upstream _ => False
  | _ => True
  end.

Definition can_send (budget : option nat) : bool :=
  match budget with
  | Some O => false
  | _ => true
  end.

(** The lines the loop inserts the header before: the first line that is
    not empty, has a colon and does not begin with [Host:], [GET] or
    [POST]. *)
Definition candidate (line : string) : bool :=
  truthy line && contains ":" line && negb (skipped line).

(** A line: CR LF does not occur in it. *)
Definition no_crlf (s : string) : Prop := contains CRLF s = false.

(** [status] is the status line of [response]: what comes before the first
    CR LF, or all of it when there is none. *)
Definition status_line (response status : string) : Prop :=
  no_crlf status /\
  (response = status \/ exists more, response = status ++ CRLF ++ more).

(** The [sendall] calls made on a socket: what each one was given. *)
Fixpoint writes (s : side) (t : list event) : list string :=
  match t with
  | [] => []
  | ESend s' d :: rest =>
      match s, s' with
      | Client, Client | Upstream, Upstream => d :: writes s rest
      | _, _ => writes s rest
      end
  | _ :: rest => writes s rest
  end.

(** Well-formed UTF-8: decoding drops nothing. *)
Definition well_formed (s : string) : Prop := decode_ignore s = s.

(** The byte string with the given byte values. *)
Definition bytes (l : list nat) : string :=
  string_of_list_ascii (map ascii_of_nat l).

(** Whether a thread holds the semaphore once it has done all of [l]. *)
Fixpoint final_holding (held : bool) (l : list event) : bool :=
  match l with
  | [] => held
  | EAcquire :: rest => final_holding true rest
  | ERelease :: rest => final_holding false rest
  | _ :: rest => final_holding held rest
  end.

(** ** Notions for the further properties *)

(** Every character of [s] passes the test [p]. *)
Fixpoint string_forallb (p : ascii -> bool) (s : string) : bool :=
  match s with
  | EmptyString => true
  | String c rest => p c && string_forallb p rest
  end.

(** Neither CR nor LF. *)
Definition plain_char (c : ascii) : bool :=
  negb (Ascii.eqb c CR) && negb (Ascii.eqb c LF).

(** A string with no CR and no LF anywhere in it. *)
Definition plain (s : string) : bool := string_forallb plain_char s.

(** The characters base64 text is made of: the alphabet and the padding. *)
Definition b64_symbol (c : ascii) : bool :=
  existsb (Ascii.eqb c) (list_ascii_of_string b64_alphabet) || Ascii.eqb c "=".

Definition not_space (c : ascii) : bool := negb (is_space c).

(** A token of [str.split()]: not empty, no white space in it. *)
Definition token (t : string) : Prop :=
  truthy t = true /\ string_forallb not_space t = true.

(** The answer to a failure: a 502 if the client can still be written to. *)
Definition failure_answer (w : world) : list event :=
  if can_send (client_tx w) then [ESend Client bad_gateway] else [].

(** The chunks a script delivers, as writes to the client. *)
Fixpoint passed_back (l : list recv_event) : list event :=
  match l with
  | [] => []
  | RData d :: rest => ESend Client d :: passed_back rest
  | RErr :: rest | RWait :: rest => passed_back rest
  end.

(** Neither socket will ever fail a [sendall]. *)
Definition open_tx (w : world) : Prop :=
  client_tx w = None /\ upstream_tx w = None.

(** From [w] to [w'] the script entries [cc] were read from the client and
    [uc] from the upstream, and what was written to each side is what was
    read from the other. *)
Definition relayed (w w' : world) : Prop :=
  exists cc uc l,
    client_rx w = (cc ++ client_rx w')%list /\
    upstream_rx w = (uc ++ upstream_rx w')%list /\
    trace w' = (trace w ++ l)%list /\
    sent Upstream l = data_of cc /\
    sent Client l = data_of uc.

(** [m] only relays, when started on sockets that never fail a [sendall]. *)
Definition relays {A} (m : M A) : Prop :=
  forall w, open_tx w -> relayed w (snd (m w)) /\ open_tx (snd (m w)).

(** Events other than closing the client socket. *)
Definition not_client_close (e : event) : Prop := e <> EClose Client.

(** No thread will be left holding the semaphore. *)
Definition settles (s : system) : Prop :=
  Forall (fun t => final_holding (holding t) (todo t) = false) (threads s).

(** Events other than closing the upstream socket. *)
Definition not_upstream_close (e : event) : Prop := e <> EClose Upstream.

(** [m] closes the upstream socket at most once, as the last thing it does,
    and only when it returns normally. *)
Definition closes_last {A} (m : M A) : Prop :=
  forall w, exists l,
    Forall not_upstream_close l /\
    (trace (snd (m w)) = (trace w ++ l)%list \/
     (trace (snd (m w)) = (trace w ++ l ++ [EClose Upstream])%list /\
      exists a, fst (m w) = Ok a)).

(** A connection the upstream proxy refuses. *)
Definition refused_world : world :=
  {| client_rx := []; upstream_rx := [];
     client_tx := None; upstream_tx := None;
     dial_ok := false; selects := []; trace := [] |}.

(** * Properties *)

(** ** The primitives on examples *)

Example b64_user_pass : b64encode "user:pass" = "dXNlcjpwYXNz".
Proof. reflexivity. Qed.

(** The test vectors of RFC 4648, section 10. *)
Example b64_rfc4648 :
  map b64encode [EmptyString; "f"; "fo"; "foo"; "foob"; "fooba"; "foobar"] =
  [EmptyString; "Zg=="; "Zm8="; "Zm9v"; "Zm9vYg=="; "Zm9vYmE="; "Zm9vYmFy"].
Proof. reflexivity. Qed.

(** Bytes above 127 and the last two letters of the alphabet. *)
Example b64_high_bytes :
  b64encode (String "251"%char (String "255"%char (String "190"%char
               EmptyString))) = "+/++".
Proof. reflexivity. Qed.

Example split_crlf_ex :
  split_crlf ("a" ++ CRLF ++ "b" ++ CRLF) = ["a"; "b"; EmptyString].
Proof. reflexivity. Qed.

Example split_ws_ex :
  split_ws "CONNECT  example.com:443 HTTP/1.1" =
  ["CONNECT"; "example.com:443"; "HTTP/1.1"].
Proof. reflexivity. Qed.

(** White space outside ASCII cuts too: U+00A0 is C2 A0, U+2003 is
    E2 80 83, U+3000 is E3 80 80 and U+0085 is C2 85.  U+200B (E2 80 8B),
    the zero width space, is not white space, and neither is the letter
    U+00E9 (C3 A9). *)
Example split_ws_unicode :
  split_ws ("CONNECT" ++ bytes [194; 160] ++ "example.com:443") =
  ["CONNECT"; "example.com:443"] /\
  split_ws ("CONNECT " ++ bytes [194; 160]) = ["CONNECT"] /\
  split_ws ("CONNECT" ++ bytes [194; 160] ++ "a b") = ["CONNECT"; "a"; "b"] /\
  split_ws ("a" ++ bytes [226; 128; 131] ++ "b"
            ++ bytes [227; 128; 128; 194; 133] ++ "c") = ["a"; "b"; "c"] /\
  split_ws ("a" ++ bytes [226; 128; 139] ++ "b") =
  ["a" ++ bytes [226; 128; 139] ++ "b"] /\
  split_ws ("caf" ++ bytes [195; 169] ++ " x") =
  ["caf" ++ bytes [195; 169]; "x"].
Proof. repeat split. Qed.

(** What the decoder keeps and drops: ASCII and the two bytes of U+00E9 are
    kept, the one byte E9 of Latin-1 is dropped; FF, FE and a stray
    continuation byte are dropped; the first two bytes of U+20AC without
    the third are dropped, all three are kept; the overlong form C0 AF, the
    surrogate ED A0 80 and F4 90 80 80, which is above U+10FFFF, are
    dropped; the four bytes of U+1F600 are kept. *)
Example decode_ignore_ex :
  decode_ignore "GET / HTTP/1.1" = "GET / HTTP/1.1" /\
  decode_ignore ("caf" ++ bytes [195; 169]) = "caf" ++ bytes [195; 169] /\
  decode_ignore ("caf" ++ bytes [233] ++ "!") = "caf!" /\
  decode_ignore (bytes [255; 254; 128]) = EmptyString /\
  decode_ignore (bytes [226; 130] ++ "A") = "A" /\
  decode_ignore (bytes [226; 130; 172]) = bytes [226; 130; 172] /\
  decode_ignore (bytes [192; 175]) = EmptyString /\
  decode_ignore (bytes [237; 160; 128]) = EmptyString /\
  decode_ignore (bytes [244; 144; 128; 128]) = EmptyString /\
  decode_ignore (bytes [240; 159; 152; 128]) = bytes [240; 159; 152; 128].
Proof. repeat split. Qed.

Example py_insert_ex1 : py_insert (-1) 9 [1; 2; 3] = [1; 2; 9; 3].
Proof. reflexivity. Qed.

Example py_insert_ex2 : py_insert (-2) 9 [1] = [9; 1].
Proof. reflexivity. Qed.

(** ** Strings *)

Lemma append_nil_r (s : string) : s ++ EmptyString = s.
Proof. induction s; simpl; congruence. Qed.

Lemma append_assoc (a b c : string) : (a ++ b) ++ c = a ++ b ++ c.
Proof. induction a; simpl; congruence. Qed.

Lemma length_append (a b : string) :
  String.length (a ++ b) = String.length a + String.length b.
Proof. induction a; simpl; congruence. Qed.

Lemma truthy_false (s : string) : truthy s = false -> s = EmptyString.
Proof. destruct s; simpl; congruence. Qed.

Lemma startswith_append (p a b : string) :
  startswith p a = true -> startswith p (a ++ b) = true.
Proof.
  revert a; induction p as [|c p IH]; intros a H; [reflexivity|].
  destruct a as [|c' a]; simpl in *; [discriminate|].
  apply andb_true_iff in H. destruct H as [H1 H2].
  rewrite H1, (IH _ H2). reflexivity.
Qed.

(** A needle found in a string is found in every extension of it. *)
Lemma contains_append (n a b : string) :
  contains n a = true -> contains n (a ++ b) = true.
Proof.
  induction a as [|c a IH]; intros H.
  - destruct n; simpl in H; [|discriminate].
    destruct b; reflexivity.
  - simpl in H. apply orb_true_iff in H. destruct H as [H|H].
    + change (startswith n (String c a ++ b) ||
              contains n (a ++ b) = true).
      rewrite (startswith_append _ _ _ H). reflexivity.
    + change (startswith n (String c a ++ b) ||
              contains n (a ++ b) = true).
      rewrite (IH H). apply orb_true_r.
Qed.

Lemma join_cons_head (c : ascii) (l : list string) :
  l <> [] -> join_crlf (cons_head c l) = String c (join_crlf l).
Proof.
  destruct l as [|h t]; [congruence|]. intros _.
  destruct t; reflexivity.
Qed.

Lemma join_crlf_cons (a : string) (l : list string) :
  l <> [] -> join_crlf (a :: l) = a ++ CRLF ++ join_crlf l.
Proof. destruct l; [congruence | reflexivity]. Qed.

Lemma cons_head_nonempty (c : ascii) (l : list string) : cons_head c l <> [].
Proof. destruct l; discriminate. Qed.

Lemma split_crlf_step (c d : ascii) (s : string) :
  split_crlf (String c (String d s)) =
  if Ascii.eqb c CR && Ascii.eqb d LF
  then EmptyString :: split_crlf s
  else cons_head c (split_crlf (String d s)).
Proof. reflexivity. Qed.

Lemma split_crlf_nonempty (s : string) : split_crlf s <> [].
Proof.
  destruct s as [|c [|d s]]; try discriminate.
  rewrite split_crlf_step.
  destruct (Ascii.eqb c CR && Ascii.eqb d LF);
    [discriminate | apply cons_head_nonempty].
Qed.

(** Splitting at CR LF and joining with CR LF gives the bytes back: the
    rewriting changes nothing but the list of lines. *)
Lemma join_split_aux (n : nat) :
  forall s, String.length s <= n -> join_crlf (split_crlf s) = s.
Proof.
  induction n as [|n IH]; intros s Hlen.
  - destruct s; simpl in *; [reflexivity | lia].
  - destruct s as [|c [|d s]]; try reflexivity.
    rewrite split_crlf_step.
    destruct (Ascii.eqb c CR && Ascii.eqb d LF) eqn:E.
    + apply andb_true_iff in E. destruct E as [Ec Ed].
      apply Ascii.eqb_eq in Ec, Ed. subst c d.
      rewrite join_crlf_cons by apply split_crlf_nonempty.
      rewrite IH by (simpl in Hlen; lia). reflexivity.
    + rewrite join_cons_head by apply split_crlf_nonempty.
      rewrite IH by (simpl in *; lia). reflexivity.
Qed.

Lemma join_split (s : string) : join_crlf (split_crlf s) = s.
Proof. apply (join_split_aux (String.length s)). lia. Qed.

(** ** Traces only grow *)

Section Emits.

Variable P : event -> Prop.

Lemma emits_same {A} (m : M A) :
  (forall w, trace (snd (m w)) = trace w) -> emits P m.
Proof.
  intros H w. exists []. rewrite H, app_nil_r. auto.
Qed.

Lemma emits_one {A} (m : M A) (e : event) :
  P e ->
  (forall w, trace (snd (m w)) = trace w \/
             trace (snd (m w)) = (trace w ++ [e])%list) ->
  emits P m.
Proof.
  intros He H w. destruct (H w) as [E|E].
  - exists []. rewrite E, app_nil_r. auto.
  - exists [e]. auto.
Qed.

Lemma emits_ret {A} (a : A) : emits P (ret a).
Proof. apply emits_same. reflexivity. Qed.

Lemma emits_bind {A B} (m : M A) (k : A -> M B) :
  emits P m -> (forall a, emits P (k a)) -> emits P (bind m k).
Proof.
  intros Hm Hk w. unfold bind.
  destruct (Hm w) as [l [El Pl]].
  destruct (m w) as [[a| |] w1] eqn:E; simpl in El.
  - destruct (Hk a w1) as [l2 [El2 Pl2]].
    exists (l ++ l2)%list. rewrite El2, El, app_assoc.
    split; [reflexivity | apply Forall_app; auto].
  - exists l. auto.
  - exists l. auto.
Qed.

Lemma emits_try {A} (m h : M A) :
  emits P m -> emits P h -> emits P (try_except m h).
Proof.
  intros Hm Hh w. unfold try_except.
  destruct (Hm w) as [l [El Pl]].
  destruct (m w) as [[a| |] w1] eqn:E; simpl in El.
  - exists l. auto.
  - destruct (Hh w1) as [l2 [El2 Pl2]].
    exists (l ++ l2)%list. rewrite El2, El, app_assoc.
    split; [reflexivity | apply Forall_app; auto].
  - exists l. auto.
Qed.

Lemma emits_finally {A} (m : M A) (f : M unit) :
  emits P m -> emits P f -> emits P (finally m f).
Proof.
  intros Hm Hf w. unfold finally.
  destruct (Hm w) as [l [El Pl]].
  destruct (m w) as [[a| |] w1] eqn:E; simpl in El;
    try (exists l; solve [auto]);
    destruct (Hf w1) as [l2 [El2 Pl2]];
    exists (l ++ l2)%list;
    (split; [| apply Forall_app; auto]);
    destruct (f w1) as [[[]| |] w2]; simpl in *;
    rewrite El2, El, app_assoc; reflexivity.
Qed.

Lemma emits_recv (s : side) : emits P (recv s).
Proof.
  apply emits_same. intros w. unfold recv.
  destruct (rx s w) as [|[d| |] rest]; try reflexivity.
  destruct s; reflexivity.
Qed.

Lemma emits_read_until (s : side) (stop acc : string) :
  emits P (read_until s stop acc).
Proof.
  apply emits_same. intros w. unfold read_until.
  destruct (recv_until stop acc (rx s w)) as [[d| |] rest];
    destruct s; reflexivity.
Qed.

Lemma emits_sendall (s : side) (d : string) :
  P (ESend s d) -> emits P (sendall s d).
Proof.
  intros H. apply emits_one with (e := ESend s d); [assumption|].
  intros w. unfold sendall. destruct (tx s w) as [[|n]|]; auto.
Qed.

Lemma emits_dial host p :
  P (EConnect host p) -> emits P (dial host p).
Proof.
  intros H. apply emits_one with (e := EConnect host p); [assumption|].
  intros w. unfold dial. destruct (dial_ok w); auto.
Qed.

Lemma emits_close (s : side) :
  P (EClose s) -> emits P (close s).
Proof.
  intros H. apply emits_one with (e := EClose s); [assumption|]. auto.
Qed.

Lemma emits_select : P ESelect -> emits P select_.
Proof.
  intros H. apply emits_one with (e := ESelect); [assumption|].
  intros w. unfold select_. destruct (selects w) as [|[rc ru exc|] rest]; auto.
Qed.

Lemma emits_pump (from to : side) :
  (forall d, P (ESend to d)) -> emits P (pump from to).
Proof.
  intros H. unfold pump. apply emits_bind; [apply emits_recv|].
  intros d. destruct (truthy d); [|apply emits_ret].
  apply emits_bind; [apply emits_sendall, H | intros; apply emits_ret].
Qed.

Lemma emits_relay_turn (again : M unit) ev :
  (forall s d, P (ESend s d)) -> emits P again ->
  emits P (relay_turn again ev).
Proof.
  intros Hsend IH. destruct ev as [[rc ru] exc]. unfold relay_turn.
  destruct exc; [apply emits_ret|].
  apply emits_bind.
  { destruct rc; [apply emits_pump; auto | apply emits_ret]. }
  intros [|]; [apply emits_ret|].
  apply emits_bind.
  { destruct ru; [apply emits_pump; auto | apply emits_ret]. }
  intros [|]; [apply emits_ret | exact IH].
Qed.

Lemma emits_relay_data (fuel : nat) :
  P ESelect -> (forall s d, P (ESend s d)) -> emits P (relay_data fuel).
Proof.
  intros Hsel Hsend. induction fuel as [|fuel IH].
  - apply emits_same. reflexivity.
  - cbn [relay_data]. apply emits_bind; [apply emits_select, Hsel|].
    intros ev. apply emits_relay_turn; assumption.
Qed.

Lemma emits_forward_response (l : list recv_event) :
  (forall d, P (ESend Client d)) -> emits P (forward_response l).
Proof.
  intros H. induction l as [|[d| |] rest IH]; cbn [forward_response].
  - apply emits_ret.
  - apply emits_bind; [apply emits_same; reflexivity|].
    intros _. destruct (truthy d); [|apply emits_ret].
    apply emits_bind; [apply emits_sendall, H | intros _; exact IH].
  - apply emits_same. reflexivity.
  - apply emits_same. reflexivity.
Qed.

Lemma emits_answer_bad_gateway :
  (forall d, P (ESend Client d)) -> emits P answer_bad_gateway.
Proof.
  intros H. apply emits_try; [apply emits_sendall, H | apply emits_ret].
Qed.

End Emits.

Create HintDb emits discriminated.

#[local] Hint Resolve emits_ret emits_recv emits_read_until emits_sendall
  emits_dial emits_close emits_select emits_pump emits_relay_data
  emits_forward_response emits_answer_bad_gateway : emits.

#[local] Hint Extern 1 (handler_event _ _) => simpl; auto : emits.
#[local] Hint Extern 1 (not_upstream_send _) => exact I : emits.

(** Walk down a computation written with [try_except], [bind] and [if]. *)
Ltac emits_walk :=
  repeat match goal with
         | |- emits _ (try_except _ _) => apply emits_try
         | |- emits _ (bind _ _) => apply emits_bind
         | |- forall _, _ => intro
         | |- emits _ (if ?c then _ else _) => destruct c
         end;
  auto with emits.

Lemma emits_handle_connect fuel h request_line :
  emits (handler_event h) (handle_connect fuel h request_line).
Proof. unfold handle_connect. emits_walk. Qed.

Lemma emits_handle_http h request_data :
  emits (handler_event h) (handle_http h request_data).
Proof.
  unfold handle_http. emits_walk.
  intros w. apply (emits_forward_response (handler_event h) (upstream_rx w)).
  auto with emits.
Qed.

Lemma emits_route fuel h request_data request_line :
  emits (handler_event h) (route fuel h request_data request_line).
Proof.
  unfold route. emits_walk;
    [apply emits_handle_connect | apply emits_handle_http].
Qed.

(** ** The shape of a handler's run *)

Lemma events_of_app {A} (m : M A) (w : world) (l : list event) :
  trace (snd (m w)) = (trace w ++ l)%list -> events_of m w = l.
Proof.
  intros H. unfold events_of. rewrite H, skipn_app, skipn_all, Nat.sub_diag.
  reflexivity.
Qed.

Lemma events_of_run {A} (m : M A) (w w' : world) (r : res A) (l : list event) :
  m w = (r, w') -> trace w' = (trace w ++ l)%list -> events_of m w = l.
Proof.
  intros E H. apply events_of_app. rewrite E. exact H.
Qed.

Lemma handle_client_shape (fuel : nat) (h : ProxyHandler) (w : world) :
  exists l,
    trace (snd (handle_client fuel h w)) = (trace w ++ l)%list /\
    run_shape h (fst (handle_client fuel h w)) l.
Proof.
  unfold handle_client, finally, try_except, bind, read_until.
  simpl rx.
  destruct (recv_until CRLF EmptyString (client_rx w)) as [[d| |] rest];
    cbv beta iota.
  - destruct (truthy d); cbv beta iota delta [negb].
    + unfold with_semaphore, bind, finally. cbv beta iota zeta.
      set (w1 := emit EAcquire (set_rx Client rest w)).
      set (request_line := decode_ignore (first_line d)).
      destruct (emits_route fuel h d request_line w1) as [body [Eb Pb]].
      destruct (route fuel h d request_line w1) as [[[]| |] w2];
        simpl in Eb; simpl.
      * exists (EAcquire :: body ++ [ERelease; EClose Client])%list.
        split; [|constructor; assumption].
        rewrite Eb. simpl. rewrite <- !app_assoc. reflexivity.
      * exists (EAcquire :: body ++ [ERelease; EClose Client])%list.
        split; [|constructor; assumption].
        rewrite Eb. simpl. rewrite <- !app_assoc. reflexivity.
      * exists (EAcquire :: body). split; [|constructor; assumption].
        rewrite Eb. simpl. rewrite <- !app_assoc. reflexivity.
    + exists [EClose Client]. split; [reflexivity | constructor].
  - exists [EClose Client]. split; [reflexivity | constructor].
  - exists []. split; [simpl; rewrite app_nil_r; reflexivity | constructor].
Qed.

Lemma handle_client_events (fuel : nat) (h : ProxyHandler) (w : world) :
  run_shape h (fst (handle_client fuel h w))
            (events_of (handle_client fuel h) w).
Proof.
  destruct (handle_client_shape fuel h w) as [l [E S]].
  rewrite (events_of_app _ _ _ E). exact S.
Qed.

(** ** The semaphore *)

Lemma handler_event_not_semaphore h e :
  handler_event h e -> is_semaphore_event e = false.
Proof. destruct e; simpl; tauto. Qed.

Lemma bracketed_body h body tail :
  Forall (handler_event h) body ->
  bracketed true (body ++ tail) = bracketed true tail.
Proof.
  induction 1 as [|e body He _ IH]; [reflexivity|].
  simpl. rewrite IH. destruct e; simpl in *; try tauto;
    try rewrite orb_true_r; reflexivity.
Qed.

Lemma run_shape_bracketed h r l : run_shape h r l -> bracketed false l = true.
Proof.
  intros [| |body Hb|body Hb]; [reflexivity..| |]; simpl.
  - rewrite (bracketed_body h) by assumption. reflexivity.
  - rewrite <- (app_nil_r body), (bracketed_body h) by assumption.
    reflexivity.
Qed.

Lemma count_body h p body :
  (forall e, p e = true -> is_semaphore_event e = true) ->
  Forall (handler_event h) body -> count_event p body = 0.
Proof.
  intros Hp. unfold count_event. induction 1 as [|e body He _ IH]; simpl.
  - reflexivity.
  - destruct (p e) eqn:E; [|exact IH].
    apply Hp in E. apply handler_event_not_semaphore in He. congruence.
Qed.

Lemma count_event_app p (a b : list event) :
  count_event p (a ++ b) = count_event p a + count_event p b.
Proof. unfold count_event. rewrite filter_app, length_app. reflexivity. Qed.

(** A handler that has returned has released the semaphore as often as it
    acquired it, and that is at most once. *)
Lemma run_shape_balanced h r l :
  run_shape h r l -> r <> OutOfFuel ->
  count_event is_acquire l = count_event is_release l /\
  count_event is_acquire l <= 1.
Proof.
  assert (Ha : forall e, is_acquire e = true -> is_semaphore_event e = true)
    by (intros []; simpl; congruence).
  assert (Hr : forall e, is_release e = true -> is_semaphore_event e = true)
    by (intros []; simpl; congruence).
  intros [| |body Hb|body Hb] Hne;
    [split; simpl; auto | congruence | | congruence].
  change (EAcquire :: body ++ [ERelease; EClose Client])%list
    with ([EAcquire] ++ body ++ [ERelease; EClose Client])%list.
  rewrite !count_event_app.
  rewrite (count_body h is_acquire body Ha Hb).
  rewrite (count_body h is_release body Hr Hb).
  split; simpl; auto.
Qed.

Lemma count_holding_split v pre t post :
  count_holding {| value := v; threads := pre ++ t :: post |} =
  List.length (filter holding pre) + held (holding t) +
  List.length (filter holding post).
Proof.
  unfold count_holding. simpl. rewrite filter_app, length_app. simpl.
  destruct (holding t); simpl; lia.
Qed.

Lemma thread_step_invariant v t v' t' :
  thread_step v t v' t' ->
  bracketed (holding t) (todo t) = true ->
  v' + held (holding t') = v + held (holding t) /\
  bracketed (holding t') (todo t') = true.
Proof.
  intros [v0 b rest|v0 b rest|v0 b e rest He]; simpl; intros H.
  - apply andb_true_iff in H. destruct H as [Hb Hr].
    destruct b; [discriminate|]. simpl. split; [lia | assumption].
  - apply andb_true_iff in H. destruct H as [Hb Hr].
    subst b. simpl. split; [lia | assumption].
  - split; [reflexivity|].
    destruct e; simpl in *; try discriminate;
      apply andb_true_iff in H; tauto.
Qed.

Lemma start_balanced max_concurrent h conns :
  balanced max_concurrent (start max_concurrent h conns).
Proof.
  unfold balanced, start, count_holding. simpl. split.
  - induction conns as [|c conns IH]; simpl; [lia | exact IH].
  - apply Forall_forall. intros t Ht. apply in_map_iff in Ht.
    destruct Ht as [[fuel w] [<- _]]. simpl.
    exact (run_shape_bracketed _ _ _ (handle_client_events fuel h w)).
Qed.

Lemma step_balanced max_concurrent s s' :
  step s s' -> balanced max_concurrent s -> balanced max_concurrent s'.
Proof.
  intros [v v' pre t t' post Hts] [Hsum Hall].
  simpl in Hall. rewrite count_holding_split in Hsum. simpl in Hsum.
  apply Forall_app in Hall. destruct Hall as [Hpre Hrest].
  inversion Hrest as [|? ? Ht Hpost]; subst.
  destruct (thread_step_invariant _ _ _ _ Hts Ht) as [Hv Hb].
  split.
  - rewrite count_holding_split. simpl. lia.
  - simpl. apply Forall_app. split; [assumption|]. constructor; assumption.
Qed.

Lemma reachable_balanced max_concurrent s s' :
  balanced max_concurrent s -> reachable s s' -> balanced max_concurrent s'.
Proof.
  intros Hs Hr. induction Hr as [|s1 s2 _ IH Hstep]; [assumption|].
  exact (step_balanced _ _ _ Hstep IH).
Qed.

Lemma bracketed_upstream b e rest :
  bracketed b (e :: rest) = true -> is_upstream_event e = true -> b = true.
Proof.
  destruct e as [host p|[] d| |[]| |]; simpl; try discriminate;
    destruct b; simpl; congruence.
Qed.

(** ** The credential encoder and the upstream address *)

(** C9.  When [urlparse] finds both a user name and a password, neither of
    them empty (the code's [if parsed.username and parsed.password]), the
    token is ["Basic "] followed by the base64 encoding of [user:password].
    When either is missing there is no token: [handle_http] forwards the
    request data as it is and the CONNECT request sent upstream has the
    request line and the Host line only. *)
Theorem auth_token (parsed : parsed_url) :
  (forall u p,
      username parsed = Some u -> password parsed = Some p ->
      truthy u = true -> truthy p = true ->
      auth_header (init parsed) =
      Some ("Basic " ++ b64encode (u ++ ":" ++ p))) /\
  (truthy_opt (username parsed) = false \/
   truthy_opt (password parsed) = false ->
   auth_header (init parsed) = None /\
   (forall request_data,
       rewrite_request (init parsed) request_data = request_data) /\
   (forall target,
       connect_request (init parsed) target =
       "CONNECT " ++ target ++ " HTTP/1.1" ++ CRLF ++
       "Host: " ++ target ++ CRLF ++ CRLF)).
Proof.
  split.
  - intros u p Hu Hp Tu Tp. unfold init; simpl.
    rewrite Hu, Hp, Tu, Tp. reflexivity.
  - intros H.
    assert (E : auth_header (init parsed) = None).
    { unfold init; simpl.
      destruct (username parsed) as [u|], (password parsed) as [p|];
        simpl in H; try reflexivity.
      destruct H as [H|H]; rewrite H;
        [reflexivity | rewrite andb_false_r; reflexivity]. }
    split; [exact E | split].
    + intros request_data. unfold rewrite_request. rewrite E. reflexivity.
    + intros target. unfold connect_request. rewrite E. reflexivity.
Qed.

Lemma auth_token_witness :
  auth_header (init {| hostname := Some "proxy.example"; port := None;
                       username := Some "user"; password := Some "pass" |}) =
  Some "Basic dXNlcjpwYXNz" /\
  auth_header (init {| hostname := Some "proxy.example"; port := None;
                       username := Some "user"; password := None |}) = None.
Proof.
  split.
  - apply (proj1 (auth_token _) "user" "pass"); reflexivity.
  - apply (proj2 (auth_token _)). right. reflexivity.
Defined.

Lemma run_shape_connect h r l host p :
  run_shape h r l -> In (EConnect host p) l ->
  host = upstream_host h /\ p = upstream_port h.
Proof.
  assert (Hbody : forall body, Forall (handler_event h) body ->
                               In (EConnect host p) body ->
                               host = upstream_host h /\ p = upstream_port h).
  { intros body Hb Hin. rewrite Forall_forall in Hb. exact (Hb _ Hin). }
  intros [| |body Hb|body Hb] Hin; simpl in Hin.
  - destruct Hin as [Hin|[]]; discriminate.
  - destruct Hin.
  - destruct Hin as [Hin|Hin]; [discriminate|].
    apply in_app_or in Hin. destruct Hin as [Hin|Hin]; [eauto|].
    simpl in Hin. destruct Hin as [Hin|[Hin|[]]]; discriminate.
  - destruct Hin as [Hin|Hin]; [discriminate | eauto].
Qed.

(** C10.  When the upstream proxy URL gives no port, the handler's upstream
    port is 3128, and 3128 is the port of every connection a handler run
    dials, on the CONNECT path and on the plain HTTP path. *)
Theorem default_port (parsed : parsed_url) :
  port parsed = None ->
  upstream_port (init parsed) = 3128%Z /\
  (forall fuel w host p,
      In (EConnect host p) (events_of (handle_client fuel (init parsed)) w) ->
      p = 3128%Z).
Proof.
  intros Hp.
  assert (E : upstream_port (init parsed) = 3128%Z)
    by (unfold init; simpl; rewrite Hp; reflexivity).
  split; [exact E|].
  intros fuel w host p Hin.
  destruct (run_shape_connect _ _ _ _ _
              (handle_client_events fuel (init parsed) w) Hin) as [_ ->].
  exact E.
Qed.

Lemma default_port_witness :
  port {| hostname := Some "proxy.example"; port := None;
          username := Some "u"; password := Some "p" |} = None /\
  upstream_port example_handler = 3128%Z.
Proof.
  split; [reflexivity|].
  apply (default_port {| hostname := Some "proxy.example"; port := None;
                         username := Some "u"; password := Some "p" |}).
  reflexivity.
Defined.

(** ** The CONNECT negotiation *)

(** What a read loop returns is what it had plus the bytes of the script
    entries it consumed. *)
Lemma recv_until_data (stop : string) (l : list recv_event) :
  forall acc r rest,
    recv_until stop acc l = (Ok r, rest) ->
    exists k, r = acc ++ data_of (firstn k l) /\ rest = skipn k l.
Proof.
  induction l as [|[d| |] l IH]; intros acc r rest; simpl;
    destruct (contains stop acc); intros H;
    try (injection H as <- <-; exists 0; simpl;
         rewrite append_nil_r; split; reflexivity);
    try discriminate.
  destruct (truthy d) eqn:Td.
  - destruct (IH _ _ _ H) as [k [-> ->]]. exists (S k). simpl.
    rewrite append_assoc. split; reflexivity.
  - injection H as <- <-. exists 1. simpl.
    rewrite (truthy_false _ Td). simpl.
    rewrite append_nil_r. destruct l; split; reflexivity.
Qed.

Lemma try_bind_bind {A B} (m : M A) (f : A -> M B) (g : B -> M unit)
  (h : M unit) (w : world) :
  try_except (x <- (a <- m ;; f a) ;; g x) h w =
  match m w with
  | (Ok a, w1) => try_except (x <- f a ;; g x) h w1
  | (Exn, w1) => h w1
  | (OutOfFuel, w1) => (OutOfFuel, w1)
  end.
Proof.
  unfold try_except, bind. destruct (m w) as [[a| |] w1]; reflexivity.
Qed.

Lemma select_trace (w : world) :
  trace (snd (select_ w)) = (trace w ++ [ESelect])%list.
Proof.
  unfold select_. destruct (selects w) as [|[rc ru exc|] rest]; reflexivity.
Qed.

(** A relay that is given at least one turn calls [select]. *)
Lemma relay_selects (fuel : nat) (w : world) :
  exists l,
    trace (snd (try_except (relay_data (S fuel) ;; close Upstream)
                           answer_bad_gateway w)) =
    (trace w ++ ESelect :: l)%list.
Proof.
  cbn [relay_data]. rewrite try_bind_bind.
  pose proof (select_trace w) as Hs.
  destruct (select_ w) as [[ev| |] w1]; simpl in Hs.
  - assert (He : emits (fun _ => True)
                   (try_except (relay_turn (relay_data fuel) ev ;;
                                close Upstream) answer_bad_gateway)).
    { apply emits_try; [|apply emits_answer_bad_gateway; auto].
      apply emits_bind; [|intros _; apply emits_close; exact I].
      apply emits_relay_turn; [auto|]. apply emits_relay_data; auto. }
    destruct (He w1) as [l [El _]]. exists l.
    rewrite El, Hs, <- app_assoc. reflexivity.
  - destruct (emits_answer_bad_gateway (fun _ => True) (fun _ => I) w1)
      as [l [El _]].
    exists l. rewrite El, Hs, <- app_assoc. reflexivity.
  - exists []. exact Hs.
Qed.

(** The negotiation of a tunnel in which nothing fails, up to the test on
    the response. *)
Lemma handle_connect_run (fuel : nat) (h : ProxyHandler)
  (request_line response : string) (rest : list recv_event) (w : world) :
  2 <= List.length (split_ws request_line) ->
  dial_ok w = true -> client_tx w = None -> upstream_tx w = None ->
  recv_until CRLFCRLF EmptyString (upstream_rx w) = (Ok response, rest) ->
  let w1 := negotiated h (nth 1 (split_ws request_line) EmptyString)
              response rest w in
  handle_connect fuel h request_line w =
  (if contains "200" (first_line response)
   then try_except (relay_data fuel ;; close Upstream) answer_bad_gateway w1
   else (Ok tt, emit (EClose Upstream) w1)).
Proof.
  intros Hparts Hdial Hctx Hutx Hrecv w1. unfold handle_connect.
  destruct (Nat.ltb_spec (List.length (split_ws request_line)) 2) as [?|_];
    [lia|].
  unfold try_except, bind, dial, sendall, read_until.
  rewrite Hdial. cbv beta iota. cbn [tx emit upstream_tx].
  rewrite Hutx. cbv beta iota. cbn [rx emit upstream_rx].
  rewrite Hrecv. cbv beta iota. cbn [tx emit set_rx client_tx].
  rewrite Hctx. cbv beta iota.
  fold (negotiated h (nth 1 (split_ws request_line) EmptyString)
          response rest w).
  fold w1. destruct (contains "200" (first_line response)); reflexivity.
Qed.

Lemma negotiated_trace (h : ProxyHandler) (target response : string)
  (rest : list recv_event) (w : world) :
  trace (negotiated h target response rest w) =
  (trace w ++ [EConnect (upstream_host h) (upstream_port h);
               ESend Upstream (connect_request h target);
               ESend Client response])%list.
Proof. unfold negotiated. simpl. rewrite <- !app_assoc. reflexivity. Qed.

(** ** The classifier's read loop *)

Lemma contains_prefix_false (n a b : string) :
  contains n (a ++ b) = false -> contains n a = false.
Proof.
  intros H. destruct (contains n a) eqn:E; [|reflexivity].
  rewrite (contains_append _ _ b E) in H. discriminate.
Qed.

(** While the stop string has not arrived, every chunk is appended. *)
Lemma recv_until_whole (stop : string) (l : list recv_event) :
  forall acc,
    Forall (fun e => delivers e = true) l ->
    contains stop (acc ++ data_of l) = false ->
    recv_until stop acc l = (Ok (acc ++ data_of l), []).
Proof.
  induction l as [|e l IH]; intros acc Hall Hno; simpl.
  - simpl in Hno. rewrite append_nil_r in *. rewrite Hno. reflexivity.
  - inversion Hall as [|? ? He Hl]; subst.
    destruct e as [d| |]; [|discriminate..]. simpl in He, Hno |- *.
    rewrite (contains_prefix_false _ _ _ Hno), He.
    rewrite <- append_assoc. apply IH; [assumption|].
    rewrite append_assoc. exact Hno.
Qed.

Lemma flood_data (n : nat) :
  String.length (data_of (flood n)) = n /\
  contains CRLF (data_of (flood n)) = false /\
  Forall (fun e => delivers e = true) (flood n).
Proof.
  induction n as [|n [IH1 [IH2 IH3]]].
  - repeat split; constructor.
  - change (flood (S n)) with (RData "a" :: flood n).
    change (data_of (RData "a" :: flood n))
      with (String "a" (data_of (flood n))).
    repeat split.
    + simpl. rewrite IH1. reflexivity.
    + change (contains CRLF (String "a" (data_of (flood n))))
        with (contains CRLF (data_of (flood n))). exact IH2.
    + constructor; [reflexivity | assumption].
Qed.

(** C7, as the code has it.  The read loop has no cap: while no CR LF has
    arrived it appends every chunk it receives, so a stream that never sends
    CR LF is buffered whole, whatever its length. *)
Theorem classifier_buffers_whole_stream (l : list recv_event) :
  Forall (fun e => delivers e = true) l ->
  contains CRLF (data_of l) = false ->
  recv_until CRLF EmptyString l = (Ok (data_of l), []) /\
  String.length (classifier_buffer l) = String.length (data_of l).
Proof.
  intros Hall Hno.
  pose proof (recv_until_whole CRLF l EmptyString Hall Hno) as H.
  simpl in H. split; [exact H|].
  unfold classifier_buffer. rewrite H. reflexivity.
Qed.

Lemma classifier_buffers_whole_stream_witness :
  Forall (fun e => delivers e = true) [RData "GET / HT"; RData "TP/1.1"] /\
  contains CRLF (data_of [RData "GET / HT"; RData "TP/1.1"]) = false /\
  recv_until CRLF EmptyString [RData "GET / HT"; RData "TP/1.1"] =
  (Ok "GET / HTTP/1.1", []).
Proof.
  assert (H1 : Forall (fun e => delivers e = true)
                      [RData "GET / HT"; RData "TP/1.1"])
    by (repeat constructor).
  assert (H2 : contains CRLF (data_of [RData "GET / HT"; RData "TP/1.1"])
               = false) by reflexivity.
  split; [exact H1 | split; [exact H2|]].
  exact (proj1 (classifier_buffers_whole_stream _ H1 H2)).
Defined.

(** C7, as the claim has it, fails: no number bounds the buffer. *)
Lemma classifier_buffer_unbounded :
  ~ exists cap : nat,
      forall l : list recv_event, String.length (classifier_buffer l) <= cap.
Proof.
  intros [cap H]. specialize (H (flood (S cap))).
  destruct (flood_data (S cap)) as [Hlen [Hno Hall]].
  unfold classifier_buffer in H.
  remember (flood (S cap)) as l.
  pose proof (recv_until_whole CRLF l EmptyString Hall Hno) as E.
  change (EmptyString ++ data_of l) with (data_of l) in E.
  rewrite E in H. cbn [fst] in H. rewrite Hlen in H. lia.
Qed.

(** C6, as the code has it.  A client stream that ends before any byte has
    arrived is abandoned silently: the handler returns normally and all it
    does is close the client socket. *)
Theorem empty_stream_abandoned (fuel : nat) (h : ProxyHandler) (w : world)
  (rest : list recv_event) :
  recv_until CRLF EmptyString (client_rx w) = (Ok EmptyString, rest) ->
  handle_client fuel h w = (Ok tt, emit (EClose Client) (set_rx Client rest w)).
Proof.
  intros H. unfold handle_client, finally, try_except, bind, read_until.
  simpl rx. rewrite H. reflexivity.
Qed.

Lemma empty_stream_abandoned_witness :
  recv_until CRLF EmptyString (client_rx (fresh [] [] [])) =
  (Ok EmptyString, []) /\
  events_of (handle_client 1 example_handler) (fresh [] [] []) =
  [EClose Client].
Proof.
  split; [reflexivity|].
  unfold events_of.
  rewrite (empty_stream_abandoned 1 example_handler (fresh [] [] []) []
             eq_refl).
  reflexivity.
Defined.

(** C6, as the claim has it, fails: a client that sends part of a line and
    closes is served like any other.  The upstream proxy is dialled and sent
    what there is. *)
Lemma partial_line_is_served :
  let partial := "GET http://example.com/ HT" in
  let w := fresh [RData partial] [] [] in
  contains CRLF (data_of (client_rx w)) = false /\
  handle_client 1 example_handler w =
  (Ok tt,
   fresh [] [] []
   |> emit EAcquire
   |> emit (EConnect (Some "proxy.example") 3128)
   |> emit (ESend Upstream (rewrite_request example_handler partial))
   |> emit (EClose Upstream)
   |> emit ERelease
   |> emit (EClose Client)).
Proof. split; reflexivity. Qed.

(** ** The relay *)

(** A time-out changes nothing: the loop calls [select] again. *)
Lemma relay_idle (fuel : nat) :
  forall n w,
    selects w = repeat timed_out n ->
    fst (relay_data fuel w) = OutOfFuel /\
    trace (snd (relay_data fuel w)) = (trace w ++ repeat ESelect fuel)%list.
Proof.
  induction fuel as [|fuel IH]; intros n w Hsel.
  - simpl. rewrite app_nil_r. split; reflexivity.
  - cbn [relay_data]. unfold bind, select_. rewrite Hsel.
    destruct n as [|n]; cbn [repeat timed_out];
      unfold relay_turn, bind, ret; cbv beta iota.
    + destruct (IH 0 (emit ESelect w) Hsel) as [H1 H2].
      rewrite H1, H2. simpl. rewrite <- app_assoc. split; reflexivity.
    + destruct (IH n (emit ESelect (set_selects (repeat timed_out n) w))
                  eq_refl) as [H1 H2].
      rewrite H1, H2. simpl. rewrite <- app_assoc. split; reflexivity.
Qed.

(** C2 at its failing inputs.  Whatever the two sockets have to deliver, when
    [select] only ever times out the relay does not return, with any amount
    of fuel: all it does is call [select] again, and nothing is closed. *)
Theorem idle_relay_never_exits (fuel n : nat) (crx urx : list recv_event) :
  let w := fresh crx urx (repeat timed_out n) in
  fst (relay_data fuel w) = OutOfFuel /\
  trace (snd (relay_data fuel w)) = repeat ESelect fuel.
Proof.
  intros w. exact (relay_idle fuel n w eq_refl).
Qed.

(** A tunnel that goes idle: the handler is still inside [relay_data] after
    any number of time-outs, and data that arrives later is still relayed. *)
Example idle_tunnel_stays_open :
  let connect := "CONNECT example.com:443 HTTP/1.1" ++ CRLFCRLF in
  let established := "HTTP/1.1 200 Connection established" ++ CRLFCRLF in
  let w := fresh [RData connect; RData "late"] [RData established]
                 [timed_out; timed_out; Ready true false false] in
  events_of (handle_client 3 example_handler) w =
  [EAcquire; EConnect (Some "proxy.example") 3128;
   ESend Upstream (connect_request example_handler "example.com:443");
   ESend Client established;
   ESelect; ESelect; ESelect; ESend Upstream "late"] /\
  fst (handle_client 3 example_handler w) = OutOfFuel.
Proof. split; reflexivity. Qed.

(** C4 at its failing input.  A tunnel is established and then [recv] on the
    upstream socket raises.  The handler writes a 502 response into the
    tunnel, and it never closes the upstream socket. *)
Theorem relay_error_leaks_upstream :
  let connect := "CONNECT example.com:443 HTTP/1.1" ++ CRLFCRLF in
  let established := "HTTP/1.1 200 Connection established" ++ CRLFCRLF in
  let w := fresh [RData connect] [RData established; RErr]
                 [Ready false true false] in
  let l := events_of (handle_client 1 example_handler) w in
  fst (handle_client 1 example_handler w) = Ok tt /\
  l = [EAcquire; EConnect (Some "proxy.example") 3128;
       ESend Upstream (connect_request example_handler "example.com:443");
       ESend Client established;
       ESelect;
       ESend Client bad_gateway;
       ERelease; EClose Client] /\
  sent Client l = established ++ bad_gateway /\
  ~ In (EClose Upstream) l.
Proof.
  intros connect established w l.
  assert (E : l = [EAcquire; EConnect (Some "proxy.example") 3128;
       ESend Upstream (connect_request example_handler "example.com:443");
       ESend Client established;
       ESelect;
       ESend Client bad_gateway;
       ERelease; EClose Client]) by reflexivity.
  split; [reflexivity | split; [exact E | split]].
  - rewrite E. reflexivity.
  - rewrite E. simpl. intuition discriminate.
Qed.

(** The same on the plain HTTP path: a failure while the response is passed
    back leaves the upstream socket open. *)
Example http_error_leaks_upstream :
  let request := "GET http://example.com/ HTTP/1.1" ++ CRLFCRLF in
  let w := fresh [RData request] [RData "HTTP/1.1 200 OK"; RErr] [] in
  let l := events_of (handle_client 1 example_handler) w in
  In (EConnect (Some "proxy.example") 3128) l /\ ~ In (EClose Upstream) l.
Proof.
  intros request w l.
  assert (E : l = [EAcquire; EConnect (Some "proxy.example") 3128;
       ESend Upstream (rewrite_request example_handler request);
       ESend Client "HTTP/1.1 200 OK";
       ESend Client bad_gateway;
       ERelease; EClose Client]) by reflexivity.
  rewrite E. simpl. split; [auto | intuition discriminate].
Qed.

(** ** Plain HTTP requests *)

Lemma keeps_bind {A B} (m : M A) (k : A -> M B) :
  keeps_client m -> (forall a, keeps_client (k a)) -> keeps_client (bind m k).
Proof.
  intros Hm Hk w. unfold bind. specialize (Hm w).
  destruct (m w) as [[a| |] w1]; simpl in Hm; [|assumption..].
  rewrite Hk. exact Hm.
Qed.

Lemma keeps_try {A} (m h : M A) :
  keeps_client m -> keeps_client h -> keeps_client (try_except m h).
Proof.
  intros Hm Hh w. unfold try_except. specialize (Hm w).
  destruct (m w) as [[a| |] w1]; simpl in Hm; [assumption| |assumption].
  rewrite Hh. exact Hm.
Qed.

Lemma keeps_sendall (s : side) (d : string) : keeps_client (sendall s d).
Proof.
  intros w. unfold sendall. destruct (tx s w) as [[|n]|]; reflexivity.
Qed.

Lemma keeps_answer_bad_gateway : keeps_client answer_bad_gateway.
Proof.
  apply keeps_try; [apply keeps_sendall | intros w; reflexivity].
Qed.

Lemma keeps_forward_response (l : list recv_event) :
  keeps_client (forward_response l).
Proof.
  induction l as [|[d| |] rest IH]; cbn [forward_response];
    [intros w; reflexivity | | intros w; reflexivity..].
  apply keeps_bind; [intros w; reflexivity|]. intros _.
  destruct (truthy d); [|intros w; reflexivity].
  apply keeps_bind; [apply keeps_sendall | intros _; exact IH].
Qed.

Lemma keeps_handle_http h request_data :
  keeps_client (handle_http h request_data).
Proof.
  unfold handle_http.
  apply keeps_try; [|apply keeps_answer_bad_gateway].
  apply keeps_bind.
  { intros w. unfold dial. destruct (dial_ok w); reflexivity. }
  intros _. apply keeps_bind; [apply keeps_sendall|]. intros _.
  apply keeps_bind; [|intros _ w; reflexivity].
  intros w. apply keeps_forward_response.
Qed.

Lemma try_bind {A B} (m : M A) (f : A -> M B) (h : M B) (w : world) :
  try_except (x <- m ;; f x) h w =
  match m w with
  | (Ok a, w1) => try_except (f a) h w1
  | (Exn, w1) => h w1
  | (OutOfFuel, w1) => (OutOfFuel, w1)
  end.
Proof.
  unfold try_except, bind. destruct (m w) as [[a| |] w1]; reflexivity.
Qed.

Lemma sent_app (s : side) (a b : list event) :
  sent s (a ++ b) = sent s a ++ sent s b.
Proof.
  induction a as [|e a IH]; [reflexivity|].
  destruct e as [| s' d | | | |]; simpl; try exact IH.
  destruct s, s'; simpl; rewrite ?IH, ?append_assoc; reflexivity.
Qed.

Lemma writes_nothing (l : list event) :
  Forall not_upstream_send l -> writes Upstream l = [].
Proof.
  induction 1 as [|e l He _ IH]; [reflexivity|].
  destruct e as [|[] d| | | |]; simpl in *; tauto.
Qed.

(** ** The request rewriter *)

Lemma inject_loop_step (hdr line : string) (rest new_lines : list string) :
  inject_loop hdr (line :: rest) new_lines false =
  if candidate line
  then inject_loop hdr rest (py_insert (-1) hdr (new_lines ++ [line])) true
  else inject_loop hdr rest (new_lines ++ [line]) false.
Proof.
  simpl. unfold candidate.
  destruct (truthy line), (contains ":" line), (skipped line); reflexivity.
Qed.

Lemma inject_loop_added (hdr : string) (lines : list string) :
  forall new_lines,
    inject_loop hdr lines new_lines true = ((new_lines ++ lines)%list, true).
Proof.
  induction lines as [|line rest IH]; intros new_lines; simpl.
  - rewrite app_nil_r. reflexivity.
  - destruct (truthy line); simpl; rewrite IH, <- app_assoc; reflexivity.
Qed.

Lemma py_insert_last {A} (x a : A) (l : list A) :
  py_insert (-1) x (l ++ [a]) = (l ++ [x; a])%list.
Proof.
  unfold py_insert. rewrite length_app. simpl.
  replace (Z.to_nat (Z.max 0 (Z.of_nat (List.length l + 1) + -1)))
    with (List.length l) by lia.
  rewrite firstn_app, firstn_all, skipn_app, skipn_all, Nat.sub_diag.
  simpl. rewrite app_nil_r. reflexivity.
Qed.

(** What the loop does: the header goes before the first candidate line,
    and nowhere when there is none. *)
Lemma inject_loop_spec (hdr : string) (lines : list string) :
  forall new_lines,
    (Forall (fun l => candidate l = false) lines /\
     inject_loop hdr lines new_lines false =
     ((new_lines ++ lines)%list, false)) \/
    (exists pre line post,
        lines = (pre ++ line :: post)%list /\
        Forall (fun l => candidate l = false) pre /\
        candidate line = true /\
        inject_loop hdr lines new_lines false =
        ((new_lines ++ pre ++ hdr :: line :: post)%list, true)).
Proof.
  induction lines as [|line rest IH]; intros new_lines.
  - left. split; [constructor|]. simpl. rewrite app_nil_r. reflexivity.
  - rewrite inject_loop_step. destruct (candidate line) eqn:C.
    + right. exists [], line, rest.
      rewrite py_insert_last, inject_loop_added, <- app_assoc.
      repeat split; auto.
    + destruct (IH (new_lines ++ [line])%list)
        as [[Hall E]|[pre [l [post [E1 [Hpre [Hc E2]]]]]]].
      * left. split; [constructor; assumption|].
        rewrite E, <- app_assoc. reflexivity.
      * right. exists (line :: pre), l, post. subst rest.
        split; [reflexivity|]. split; [constructor; assumption|].
        split; [assumption|]. rewrite E2, <- app_assoc. reflexivity.
Qed.

(** The header is inserted exactly once, whatever the lines are. *)
Lemma inject_lines_once (hdr : string) (lines : list string) :
  exists k,
    inject_lines hdr lines = (firstn k lines ++ hdr :: skipn k lines)%list.
Proof.
  unfold inject_lines.
  destruct (inject_loop_spec hdr lines [])
    as [[_ E]|[pre [l [post [E1 [_ [_ E2]]]]]]].
  - rewrite E. simpl app. unfold py_insert. eauto.
  - rewrite E2. simpl app. exists (List.length pre). subst lines.
    rewrite firstn_app, firstn_all, Nat.sub_diag, skipn_app, skipn_all,
      Nat.sub_diag.
    simpl. rewrite app_nil_r. reflexivity.
Qed.

(** Where the rewriter is right: when the request line is not a candidate
    (it has no colon, or it begins with [GET] or [POST]), a header block is
    rewritten to itself with the header inserted once, after the request
    line and before the blank line that ends the block. *)
Lemma inject_header_block (hdr request_line : string)
  (headers : list string) :
  candidate request_line = false ->
  let lines := (request_line :: headers ++ [EmptyString; EmptyString])%list in
  exists k,
    1 <= k <= S (List.length headers) /\
    inject_lines hdr lines = (firstn k lines ++ hdr :: skipn k lines)%list.
Proof.
  intros Hrl lines. unfold inject_lines.
  assert (Hlen : List.length lines = List.length headers + 3)
    by (unfold lines; simpl; rewrite length_app; simpl; lia).
  destruct (inject_loop_spec hdr lines [])
    as [[_ E]|[pre [l [post [E1 [_ [Hc E2]]]]]]].
  - rewrite E. simpl app. exists (S (List.length headers)).
    split; [lia|]. unfold py_insert. rewrite Hlen.
    change (-2 <? 0)%Z with true. cbv iota.
    replace (Z.to_nat (Z.max 0 (Z.of_nat (List.length headers + 3) + -2)))
      with (S (List.length headers)) by lia.
    reflexivity.
  - rewrite E2. simpl app. exists (List.length pre). split.
    + split.
      * destruct pre as [|p pre]; [|simpl; lia].
        unfold lines in E1. simpl in E1. injection E1 as E1 _.
        congruence.
      * destruct (le_lt_dec (List.length pre) (S (List.length headers)))
          as [Hle|Hgt]; [exact Hle|exfalso].
        assert (Hn : nth_error lines (List.length pre) = Some l).
        { rewrite E1, nth_error_app2, Nat.sub_diag by lia. reflexivity. }
        change lines
          with ((request_line :: headers) ++ [EmptyString; EmptyString])%list
          in Hn.
        rewrite nth_error_app2 in Hn by (simpl; lia).
        simpl List.length in Hn.
        destruct (List.length pre - S (List.length headers))
          as [|[|[|n]]] eqn:En; simpl in Hn; try discriminate; try lia;
          injection Hn as <-; discriminate.
    + rewrite E1.
      rewrite firstn_app, firstn_all, Nat.sub_diag, skipn_app, skipn_all,
        Nat.sub_diag.
      simpl. rewrite app_nil_r. reflexivity.
Qed.

(** Where it is wrong: a request line that is a candidate gets the header
    in front of it. *)
Lemma inject_displaces (hdr request_line : string) (rest : list string) :
  candidate request_line = true ->
  inject_lines hdr (request_line :: rest) = hdr :: request_line :: rest.
Proof.
  intros H. unfold inject_lines. rewrite inject_loop_step, H.
  rewrite (py_insert_last hdr request_line []), inject_loop_added.
  reflexivity.
Qed.

(** C1 at its failing input.  A PUT request in the absolute form a proxy
    receives has a colon in its request line and begins with neither [GET]
    nor [POST]: the header is inserted before the request line, so what is
    sent upstream no longer starts with the request line. *)
Theorem request_line_displaced :
  let request := "PUT http://example.com/item HTTP/1.1" ++ CRLF ++
                 "Host: example.com" ++ CRLFCRLF in
  rewrite_request example_handler request =
  "Proxy-Authorization: Basic dTpw" ++ CRLF ++ request /\
  first_line (rewrite_request example_handler request) <> first_line request /\
  sent Upstream
    (events_of (handle_http example_handler request) (fresh [] [] [])) =
  "Proxy-Authorization: Basic dTpw" ++ CRLF ++ request.
Proof.
  intros request. split; [reflexivity | split; [|reflexivity]].
  vm_compute. discriminate.
Qed.

(** ** Lines round trip *)

Lemma contains_cons (n : string) (c : ascii) (s : string) :
  contains n (String c s) = startswith n (String c s) || contains n s.
Proof. reflexivity. Qed.

Lemma startswith_crlf (c d : ascii) (s : string) :
  startswith CRLF (String c (String d s)) = Ascii.eqb c CR && Ascii.eqb d LF.
Proof.
  unfold CRLF. cbn [startswith]. rewrite andb_true_r.
  rewrite (Ascii.eqb_sym CR c), (Ascii.eqb_sym LF d). reflexivity.
Qed.

Lemma split_crlf_single (s : string) : no_crlf s -> split_crlf s = [s].
Proof.
  unfold no_crlf. induction s as [|c s IH]; intros H; [reflexivity|].
  destruct s as [|d s]; [reflexivity|].
  rewrite contains_cons, startswith_crlf in H.
  apply orb_false_iff in H. destruct H as [H1 H2].
  rewrite split_crlf_step, H1, (IH H2). reflexivity.
Qed.

Lemma split_crlf_line (a b : string) :
  no_crlf a -> split_crlf (a ++ CRLF ++ b) = a :: split_crlf b.
Proof.
  unfold no_crlf. induction a as [|c a IH]; intros H.
  - reflexivity.
  - rewrite contains_cons in H. apply orb_false_iff in H.
    destruct H as [H1 H2]. specialize (IH H2).
    destruct a as [|d a].
    + change (String c EmptyString ++ CRLF ++ b)
        with (String c (String CR (String LF b))).
      rewrite split_crlf_step.
      change (Ascii.eqb CR LF) with false. rewrite andb_false_r.
      change (split_crlf (String CR (String LF b)))
        with (EmptyString :: split_crlf b).
      reflexivity.
    + rewrite startswith_crlf in H1.
      change (String c (String d a) ++ CRLF ++ b)
        with (String c (String d (a ++ CRLF ++ b))).
      rewrite split_crlf_step, H1.
      change (String d (a ++ CRLF ++ b)) with (String d a ++ CRLF ++ b).
      rewrite IH. reflexivity.
Qed.

Lemma split_join (lines : list string) :
  lines <> [] -> Forall no_crlf lines -> split_crlf (join_crlf lines) = lines.
Proof.
  induction lines as [|l lines IH]; intros Hne Hall; [congruence|].
  inversion Hall as [|? ? Hl Hrest]; subst.
  destruct lines as [|l2 lines].
  - apply split_crlf_single, Hl.
  - rewrite join_crlf_cons by discriminate.
    rewrite split_crlf_line by assumption.
    rewrite IH by (auto; discriminate). reflexivity.
Qed.

(** ** The test on the upstream's answer to CONNECT *)

Lemma first_line_status (response status : string) :
  status_line response status -> first_line response = status.
Proof.
  intros [Hno [->|[more ->]]]; unfold first_line.
  - rewrite (split_crlf_single _ Hno). reflexivity.
  - rewrite (split_crlf_line _ _ Hno). reflexivity.
Qed.

Lemma emits_anything {A} (m : M A) (w : world) :
  emits (fun _ => True) m ->
  exists l, trace (snd (m w)) = (trace w ++ l)%list.
Proof. intros H. destruct (H w) as [l [E _]]. eauto. Qed.

(** C5, as the code has it.  In a CONNECT negotiation in which nothing
    fails (the request line has a target, the upstream proxy accepts the
    connection, no [sendall] and no [recv] raises), the handler dials, sends
    the CONNECT request and writes to the client the bytes read from the
    upstream proxy, unchanged.  Then [relay_data] runs if the bytes ["200"]
    occur anywhere in the status line, whatever the status code is, and
    otherwise all that follows is the close of the upstream socket.  So the
    relay's [select] is called if and only if ["200"] occurs in the status
    line. *)
Theorem connect_negotiation (fuel : nat) (h : ProxyHandler)
  (request_line response status : string) (rest : list recv_event)
  (w : world) :
  2 <= List.length (split_ws request_line) ->
  dial_ok w = true -> client_tx w = None -> upstream_tx w = None ->
  recv_until CRLFCRLF EmptyString (upstream_rx w) = (Ok response, rest) ->
  status_line response status ->
  let target := nth 1 (split_ws request_line) EmptyString in
  let w1 := negotiated h target response rest w in
  (exists k, response = data_of (firstn k (upstream_rx w))) /\
  handle_connect fuel h request_line w =
    (if contains "200" status
     then try_except (relay_data fuel ;; close Upstream) answer_bad_gateway w1
     else (Ok tt, emit (EClose Upstream) w1)) /\
  (exists l,
      events_of (handle_connect fuel h request_line) w =
      (EConnect (upstream_host h) (upstream_port h)
       :: ESend Upstream (connect_request h target)
       :: ESend Client response :: l)%list /\
      (contains "200" status = false -> l = [EClose Upstream])) /\
  (In ESelect (events_of (handle_connect (S fuel) h request_line) w) <->
   contains "200" status = true).
Proof.
  intros Hparts Hdial Hctx Hutx Hrecv Hstatus target w1.
  assert (Heq : forall n,
    handle_connect n h request_line w =
    (if contains "200" status
     then try_except (relay_data n ;; close Upstream) answer_bad_gateway w1
     else (Ok tt, emit (EClose Upstream) w1))).
  { intros n. rewrite <- (first_line_status _ _ Hstatus).
    exact (handle_connect_run n h request_line response rest w
             Hparts Hdial Hctx Hutx Hrecv). }
  pose proof (negotiated_trace h target response rest w) as Ht. fold w1 in Ht.
  split; [|split; [|split]].
  - destruct (recv_until_data _ _ _ _ _ Hrecv) as [k [E _]].
    exists k. exact E.
  - apply Heq.
  - unfold events_of. rewrite Heq.
    destruct (contains "200" status).
    + assert (He : emits (fun _ => True)
                     (try_except (relay_data fuel ;; close Upstream)
                        answer_bad_gateway)).
      { apply emits_try; [|apply emits_answer_bad_gateway; auto].
        apply emits_bind; [|intros _; apply emits_close; exact I].
        apply emits_relay_data; auto. }
      destruct (emits_anything _ w1 He) as [l El]. exists l.
      split; [|discriminate].
      rewrite El, Ht, <- app_assoc, skipn_app, skipn_all, Nat.sub_diag.
      reflexivity.
    + exists [EClose Upstream]. split; [|reflexivity].
      cbn [snd emit trace].
      rewrite Ht, <- app_assoc, skipn_app, skipn_all, Nat.sub_diag.
      reflexivity.
  - unfold events_of. rewrite Heq.
    destruct (contains "200" status).
    + destruct (relay_selects fuel w1) as [l El]. rewrite El, Ht.
      rewrite <- app_assoc, skipn_app, skipn_all, Nat.sub_diag. simpl.
      split; [reflexivity | auto 6].
    + cbn [snd emit trace].
      rewrite Ht, <- app_assoc, skipn_app, skipn_all, Nat.sub_diag.
      simpl. split; [|discriminate].
      intros [H|[H|[H|[H|[]]]]]; discriminate.
Qed.

(** A refusal with header lines after the status line: the client gets it
    as it is and the upstream socket is closed. *)
Lemma connect_negotiation_witness :
  let request_line := "CONNECT example.com:443 HTTP/1.1" in
  let status := "HTTP/1.1 403 Forbidden" in
  let response := status ++ CRLF ++ "Content-Length: 0" ++ CRLFCRLF in
  let w := fresh [] [RData response] [] in
  2 <= List.length (split_ws request_line) /\
  dial_ok w = true /\ client_tx w = None /\ upstream_tx w = None /\
  recv_until CRLFCRLF EmptyString (upstream_rx w) = (Ok response, []) /\
  status_line response status /\
  exists l,
    events_of (handle_connect 1 example_handler request_line) w =
    (EConnect (Some "proxy.example") 3128%Z
     :: ESend Upstream (connect_request example_handler "example.com:443")
     :: ESend Client response :: l)%list /\
    (contains "200" status = false -> l = [EClose Upstream]).
Proof.
  intros request_line status response w.
  assert (H1 : 2 <= List.length (split_ws request_line))
    by (vm_compute; lia).
  assert (H2 : recv_until CRLFCRLF EmptyString (upstream_rx w) =
               (Ok response, [])) by reflexivity.
  assert (H3 : status_line response status).
  { split; [reflexivity|]. right.
    exists ("Content-Length: 0" ++ CRLFCRLF). reflexivity. }
  split; [exact H1|]. do 3 (split; [reflexivity|]).
  split; [exact H2 | split; [exact H3|]].
  exact (proj1 (proj2 (proj2
    (connect_negotiation 1 example_handler request_line response status [] w
       H1 eq_refl eq_refl eq_refl H2 H3)))).
Defined.

(** C5, as the claim has it, fails: a status other than 200 does not always
    end the connection.  The upstream proxy refuses with 407 and a reason
    phrase that has ["200"] in it; the handler enters the relay and passes
    on what the client sends next. *)
Lemma refusal_with_200_is_relayed :
  let connect := "CONNECT example.com:443 HTTP/1.1" ++ CRLFCRLF in
  let status := "HTTP/1.1 407 Proxy Authentication Required (ref 12003)" in
  let denied := status ++ CRLFCRLF in
  let w := fresh [RData connect; RData "hello"] [RData denied]
                 [Ready true false false; Ready true false false] in
  status_line denied status /\
  fst (handle_client 2 example_handler w) = Ok tt /\
  events_of (handle_client 2 example_handler) w =
  [EAcquire; EConnect (Some "proxy.example") 3128%Z;
   ESend Upstream (connect_request example_handler "example.com:443");
   ESend Client denied;
   ESelect; ESend Upstream "hello";
   ESelect; EClose Upstream;
   ERelease; EClose Client].
Proof.
  intros connect status denied w.
  split; [|split; reflexivity].
  split; [reflexivity|]. right. exists CRLF. reflexivity.
Qed.

(** ** What a plain HTTP request sends upstream *)

(** C3, as the code has it.  [handle_http] never reads from the client
    socket, and it calls [sendall] on the upstream socket exactly once,
    provided the dial and that [sendall] succeed, and not at all otherwise.
    What it sends is the request data it was called with when there is no
    token, and with a token the lines of the decoded request data with the
    Proxy-Authorization line inserted at one place.  Bytes the client sends
    after the reads that completed the header block stay unread. *)
Theorem http_forwards_buffer_only (h : ProxyHandler) (request_data : string)
  (w : world) :
  client_rx (snd (handle_http h request_data w)) = client_rx w /\
  writes Upstream (events_of (handle_http h request_data) w) =
  (if dial_ok w && can_send (upstream_tx w)
   then [rewrite_request h request_data]
   else []) /\
  (truthy_opt (auth_header h) = false ->
   rewrite_request h request_data = request_data) /\
  (forall tok,
      auth_header h = Some tok -> truthy tok = true ->
      exists k,
        let lines := split_crlf (decode_ignore request_data) in
        rewrite_request h request_data =
        join_crlf (firstn k lines ++ proxy_authorization tok
                     :: skipn k lines)).
Proof.
  split; [apply keeps_handle_http|]. split; [|split].
  - assert (Hbg : emits not_upstream_send answer_bad_gateway)
      by (apply emits_answer_bad_gateway; intros; exact I).
    assert (Hrest : emits not_upstream_send
              (try_except
                 ((fun w0 => forward_response (upstream_rx w0) w0) ;;
                  close Upstream) answer_bad_gateway)).
    { apply emits_try; [|exact Hbg].
      apply emits_bind; [|intros _; apply emits_close; exact I].
      intros w0. apply emits_forward_response. intros; exact I. }
    set (c := EConnect (upstream_host h) (upstream_port h)).
    set (x := rewrite_request h request_data).
    assert (Hfail : forall w1 pre,
              trace w1 = (trace w ++ pre)%list ->
              exists l, trace (snd (answer_bad_gateway w1)) =
                        (trace w ++ pre ++ l)%list /\
                        writes Upstream l = []).
    { intros w1 pre E. destruct (Hbg w1) as [l [El Pl]].
      exists l. rewrite El, E, <- app_assoc.
      split; [reflexivity | apply writes_nothing, Pl]. }
    assert (Hok : forall w2,
              trace w2 = (trace w ++ [c; ESend Upstream x])%list ->
              writes Upstream
                (skipn (List.length (trace w))
                   (trace (snd (try_except
                      ((fun w0 => forward_response (upstream_rx w0) w0) ;;
                       close Upstream) answer_bad_gateway w2)))) = [x]).
    { intros w2 E. destruct (Hrest w2) as [l [El Pl]].
      rewrite El, E, <- app_assoc, skipn_app, skipn_all, Nat.sub_diag.
      simpl. rewrite (writes_nothing _ Pl). reflexivity. }
    unfold events_of, handle_http. rewrite try_bind. unfold dial.
    destruct (dial_ok w); cbv beta iota.
    + rewrite try_bind. unfold sendall. cbn [tx emit upstream_tx].
      fold c. fold x.
      destruct (upstream_tx w) as [[|n]|]; cbv beta iota; simpl andb; cbv iota.
      * destruct (Hfail (emit c w) [c] eq_refl) as [l [El Sl]].
        rewrite El, skipn_app, skipn_all, Nat.sub_diag. simpl. exact Sl.
      * apply Hok. simpl. rewrite <- app_assoc. reflexivity.
      * apply Hok. simpl. rewrite <- app_assoc. reflexivity.
    + fold c. destruct (Hfail (emit c w) [c] eq_refl) as [l [El Sl]].
      rewrite El, skipn_app, skipn_all, Nat.sub_diag. simpl. exact Sl.
  - unfold rewrite_request, truthy_opt.
    destruct (auth_header h) as [tok|]; [|reflexivity].
    intros ->. reflexivity.
  - intros tok Ha Ht. unfold rewrite_request. rewrite Ha, Ht.
    destruct (inject_lines_once (proxy_authorization tok)
                (split_crlf (decode_ignore request_data))) as [k E].
    exists k. cbv zeta. rewrite E. reflexivity.
Qed.

(** C3, as the claim has it, fails: the header block arrives in one read and
    the body in the next; the body is never read and never reaches the
    upstream proxy. *)
Lemma later_body_not_forwarded :
  let headers := "POST http://example.com/form HTTP/1.1" ++ CRLF ++
                 "Host: example.com" ++ CRLF ++
                 "Content-Length: 10" ++ CRLFCRLF in
  let w := fresh [RData headers; RData "name=value"]
                 [RData ("HTTP/1.1 200 OK" ++ CRLFCRLF)] [] in
  let w' := snd (handle_client 1 example_handler w) in
  fst (handle_client 1 example_handler w) = Ok tt /\
  writes Upstream (trace w') = [rewrite_request example_handler headers] /\
  contains "name=value" (sent Upstream (trace w')) = false /\
  client_rx w' = [RData "name=value"].
Proof. repeat split. Qed.

(** Body bytes that came with the header block are sent with it, except
    that with a token the bytes that are not UTF-8 are lost. *)
Example malformed_bytes_are_dropped :
  let headers := "POST http://example.com/form HTTP/1.1" ++ CRLF ++
                 "Host: example.com" ++ CRLF ++
                 "Content-Length: 3" ++ CRLFCRLF in
  let body := bytes [255; 254; 128] in
  rewrite_request example_handler (headers ++ body) =
  rewrite_request example_handler headers /\
  rewrite_request (init {| hostname := Some "proxy.example"; port := None;
                           username := None; password := None |})
    (headers ++ body) = headers ++ body.
Proof. split; reflexivity. Qed.

(** ** Tunnels that go idle *)

(** [handle_client] on a CONNECT request. *)
Lemma handle_client_connect (fuel : nat) (h : ProxyHandler) (w : world)
  (d : string) (rest : list recv_event) :
  recv_until CRLF EmptyString (client_rx w) = (Ok d, rest) ->
  truthy d = true ->
  startswith "CONNECT" (decode_ignore (first_line d)) = true ->
  handle_client fuel h w =
  match handle_connect fuel h (decode_ignore (first_line d))
          (emit EAcquire (set_rx Client rest w)) with
  | (OutOfFuel, w') => (OutOfFuel, w')
  | (_, w') => (Ok tt, emit (EClose Client) (emit ERelease w'))
  end.
Proof.
  intros Hr Ht Hc.
  unfold handle_client, finally, try_except, bind, read_until.
  simpl rx. rewrite Hr. cbv beta iota. rewrite Ht.
  cbv beta iota delta [negb]. cbv beta iota zeta.
  unfold with_semaphore, bind, finally, route. rewrite Hc.
  cbv beta iota.
  destruct (handle_connect fuel h (decode_ignore (first_line d))
              (emit EAcquire (set_rx Client rest w))) as [[[]| |] w'];
    reflexivity.
Qed.

Lemma count_selects (p : event -> bool) (n : nat) :
  p ESelect = false -> count_event p (repeat ESelect n) = 0.
Proof.
  intros H. unfold count_event. induction n as [|n IH]; [reflexivity|].
  simpl. rewrite H. exact IH.
Qed.

Lemma holding_selects (b : bool) (n : nat) :
  final_holding b (repeat ESelect n) = b.
Proof. induction n as [|n IH]; [reflexivity | exact IH]. Qed.

Lemma idle_tunnel_run (fuel n : nat) :
  fst (handle_client fuel example_handler (idle_tunnel n)) = OutOfFuel /\
  events_of (handle_client fuel example_handler) (idle_tunnel n) =
  idle_tunnel_events fuel.
Proof.
  set (connect := "CONNECT example.com:443 HTTP/1.1" ++ CRLFCRLF).
  set (established := "HTTP/1.1 200 Connection established" ++ CRLFCRLF).
  set (w := idle_tunnel n).
  set (w0 := emit EAcquire (set_rx Client [] w)).
  set (w1 := negotiated example_handler "example.com:443" established [] w0).
  assert (Hc : handle_client fuel example_handler w =
               match handle_connect fuel example_handler
                       "CONNECT example.com:443 HTTP/1.1" w0 with
               | (OutOfFuel, w') => (OutOfFuel, w')
               | (_, w') => (Ok tt, emit (EClose Client) (emit ERelease w'))
               end).
  { exact (handle_client_connect fuel example_handler w connect []
             eq_refl eq_refl eq_refl). }
  assert (Hn : handle_connect fuel example_handler
                 "CONNECT example.com:443 HTTP/1.1" w0 =
               try_except (relay_data fuel ;; close Upstream)
                 answer_bad_gateway w1).
  { assert (H2 : 2 <= List.length
                        (split_ws "CONNECT example.com:443 HTTP/1.1"))
      by (vm_compute; lia).
    exact (handle_connect_run fuel example_handler
             "CONNECT example.com:443 HTTP/1.1" established [] w0
             H2 eq_refl eq_refl eq_refl eq_refl). }
  destruct (relay_idle fuel n w1 eq_refl) as [Hr Ht].
  assert (Hrun : handle_client fuel example_handler w =
                 (OutOfFuel, snd (relay_data fuel w1))).
  { rewrite Hc, Hn. unfold try_except, bind.
    destruct (relay_data fuel w1) as [r w2]. simpl in Hr. subst r.
    reflexivity. }
  split; [rewrite Hrun; reflexivity|].
  eapply events_of_run; [exact Hrun|]. rewrite Ht. reflexivity.
Qed.

(** C8 at its failing input.  A tunnel is established and then nothing
    arrives from either side, so that [select] only ever times out.  The
    handler has acquired the semaphore once and, with any amount of fuel,
    has not returned and has not released it: all it does after the
    negotiation is call [select] again. *)
Theorem idle_tunnel_keeps_its_slot (fuel n : nat) :
  let connect := "CONNECT example.com:443 HTTP/1.1" ++ CRLFCRLF in
  let established := "HTTP/1.1 200 Connection established" ++ CRLFCRLF in
  let w := fresh [RData connect] [RData established] (repeat timed_out n) in
  let l := events_of (handle_client fuel example_handler) w in
  fst (handle_client fuel example_handler w) = OutOfFuel /\
  l = ([EAcquire; EConnect (Some "proxy.example") 3128%Z;
        ESend Upstream (connect_request example_handler "example.com:443");
        ESend Client established] ++ repeat ESelect fuel)%list /\
  count_event is_acquire l = 1 /\
  count_event is_release l = 0 /\
  final_holding false l = true.
Proof.
  intros connect established w l.
  destruct (idle_tunnel_run fuel n) as [Hr El].
  split; [exact Hr|]. split; [exact El|].
  unfold l, w, connect, established. fold (idle_tunnel n).
  rewrite El. unfold idle_tunnel_events. rewrite !count_event_app.
  rewrite (count_selects is_acquire fuel eq_refl).
  rewrite (count_selects is_release fuel eq_refl).
  split; [reflexivity | split; [reflexivity|]].
  simpl. apply holding_selects.
Qed.

(** Peers that stay silent.  A client that connects and sends nothing keeps
    its handler in the first [recv], outside the semaphore.  A client that
    sends a request line and then nothing keeps its handler in the second
    read loop, inside the semaphore.  An upstream proxy that does not answer
    the CONNECT request makes [recv] raise after 30 seconds: the client gets
    a 502 and the handler returns. *)
Example silent_peers :
  let line := "GET http://example.com/ HTTP/1.1" ++ CRLF in
  let connect := "CONNECT example.com:443 HTTP/1.1" ++ CRLFCRLF in
  handle_client 1 example_handler (fresh [RWait] [] []) =
  (OutOfFuel, fresh [RWait] [] []) /\
  handle_client 1 example_handler (fresh [RData line; RWait] [] []) =
  (OutOfFuel, fresh [RWait] [] [] |> emit EAcquire) /\
  handle_client 1 example_handler (fresh [RData connect] [RWait] []) =
  (Ok tt,
   fresh [] [] []
   |> emit EAcquire
   |> emit (EConnect (Some "proxy.example") 3128)
   |> emit (ESend Upstream
              (connect_request example_handler "example.com:443"))
   |> emit (ESend Client bad_gateway)
   |> emit ERelease
   |> emit (EClose Client)).
Proof. repeat split. Qed.

Lemma reach_first (s s1 s2 : system) :
  step s s1 -> reachable s1 s2 -> reachable s s2.
Proof.
  intros H R. induction R as [|s2 s3 _ IH Hs].
  - exact (reach_step _ _ _ (reach_refl _) H).
  - exact (reach_step _ _ _ IH Hs).
Qed.

(** A thread runs through events that do not touch the semaphore. *)
Lemma reach_io (v : nat) (pre post : list thread) (b : bool)
  (body rest : list event) :
  Forall (fun e => is_semaphore_event e = false) body ->
  reachable {| value := v;
               threads := pre ++ {| holding := b; todo := body ++ rest |}
                            :: post |}
            {| value := v;
               threads := pre ++ {| holding := b; todo := rest |} :: post |}.
Proof.
  induction 1 as [|e body He _ IH]; [apply reach_refl|].
  eapply reach_first; [|exact IH].
  apply step_thread. simpl. apply ts_io. exact He.
Qed.

(** A step is the step of a thread that has something to do, and an
    [acquire] needs the counter above zero. *)
Lemma step_needs_thread (s s' : system) :
  step s s' ->
  exists t e rest,
    In t (threads s) /\ todo t = e :: rest /\
    (e = EAcquire -> 0 < value s).
Proof.
  intros [v v' pre t t' post Hts]. exists t.
  destruct Hts as [v0 b rest|v0 b rest|v0 b e rest He]; simpl;
    do 2 eexists; (split; [apply in_elt|]); (split; [reflexivity|]);
    intros E; try discriminate; try lia.
  subst e. discriminate.
Qed.

(** With room for one handler, an idle tunnel keeps every later connection
    waiting: the first handler has done all its fuel lets it do and is
    still inside [with semaphore:], the second is at its [acquire], and no
    thread can take a step. *)
Example idle_tunnel_blocks_admission (fuel n : nat) (c : nat * world) :
  In EAcquire (events_of (handle_client (fst c) example_handler) (snd c)) ->
  let waiting :=
    {| holding := false;
       todo := events_of (handle_client (fst c) example_handler) (snd c) |} in
  let s := {| value := 0;
              threads := [ {| holding := true; todo := [] |}; waiting ] |} in
  reachable (start 1 example_handler [(fuel, idle_tunnel n); c]) s /\
  ~ exists s', step s s'.
Proof.
  intros Hin waiting s.
  destruct (idle_tunnel_run fuel n) as [_ El].
  assert (Hw : exists rest, todo waiting = EAcquire :: rest).
  { pose proof (handle_client_events (fst c) example_handler (snd c)) as Hs.
    unfold waiting. simpl.
    destruct Hs as [| |body Hb|body Hb]; simpl in Hin; eauto.
    - destruct Hin as [H|[]]; discriminate.
    - destruct Hin. }
  split.
  - unfold start. cbn [map fst snd]. fold waiting. rewrite El.
    unfold idle_tunnel_events.
    eapply reach_first.
    { eapply (step_thread 1 0 [] _ _ [waiting]). apply ts_acquire. }
    rewrite <- (app_nil_r (_ ++ repeat ESelect fuel)).
    apply (reach_io 0 [] [waiting] true).
    apply Forall_app. split; [repeat constructor|].
    apply Forall_forall. intros e He. apply repeat_spec in He. subst e.
    reflexivity.
  - intros [s' Hs]. destruct Hw as [rest Hw].
    destruct (step_needs_thread _ _ Hs) as [t [e [r [Ht [Htodo He]]]]].
    simpl in Ht. destruct Ht as [<-|[<-|[]]].
    + discriminate.
    + rewrite Hw in Htodo. injection Htodo as <- _.
      specialize (He eq_refl). simpl in He. lia.
Qed.

(** * Further properties *)

(** ** The rewriter on whole requests *)

Lemma plain_append (a b : string) :
  plain (a ++ b) = plain a && plain b.
Proof.
  unfold plain. induction a as [|c a IH]; simpl; [reflexivity|].
  rewrite IH, andb_assoc. reflexivity.
Qed.

Lemma plain_no_crlf (s : string) : plain s = true -> no_crlf s.
Proof.
  unfold plain, no_crlf. induction s as [|c s IH]; intros H; [reflexivity|].
  simpl in H. apply andb_true_iff in H. destruct H as [Hc Hs].
  rewrite contains_cons, (IH Hs), orb_false_r.
  destruct s as [|d s]; [simpl; rewrite andb_false_r; reflexivity|].
  rewrite startswith_crlf.
  unfold plain_char in Hc. apply andb_true_iff in Hc. destruct Hc as [Hc _].
  apply negb_true_iff in Hc. rewrite Hc. reflexivity.
Qed.

(** Text in ASCII is well-formed UTF-8. *)
Lemma ascii_well_formed (s : string) :
  string_forallb (byte_in 0 127) s = true -> well_formed s.
Proof.
  unfold well_formed, decode_ignore.
  induction s as [|c s IH]; intros H; [reflexivity|].
  simpl in H. apply andb_true_iff in H. destruct H as [Hc Hs].
  cbn [decode_ignore_aux sequence_length]. rewrite Hc, (IH Hs). reflexivity.
Qed.

(** X8.  With a token, what is sent for any request data is the lines of its
    decoded text with the Proxy-Authorization line inserted at one place;
    taking that line out again gives back the decoded text, which is the
    request data byte for byte when that is well-formed UTF-8. *)
Theorem rewrite_inserts_one_line (h : ProxyHandler) (tok request_data : string) :
  auth_header h = Some tok -> truthy tok = true ->
  exists k,
    let lines := split_crlf (decode_ignore request_data) in
    rewrite_request h request_data =
    join_crlf (firstn k lines ++ proxy_authorization tok :: skipn k lines) /\
    join_crlf (firstn k lines ++ skipn k lines) = decode_ignore request_data /\
    (well_formed request_data ->
     join_crlf (firstn k lines ++ skipn k lines) = request_data).
Proof.
  intros Ha Ht. unfold rewrite_request. rewrite Ha, Ht.
  destruct (inject_lines_once (proxy_authorization tok)
              (split_crlf (decode_ignore request_data))) as [k E].
  exists k. cbv zeta. rewrite E, firstn_skipn, join_split.
  split; [reflexivity | split; [reflexivity|]]. intros Hwf. exact Hwf.
Qed.

(** A request whose path has the one byte E9, which is not UTF-8: the byte
    is dropped from what is sent. *)
Lemma rewrite_inserts_one_line_witness :
  let request := "GET http://example.com/caf" ++ bytes [233] ++ " HTTP/1.1"
                 ++ CRLF ++ "Host: example.com" ++ CRLFCRLF in
  auth_header example_handler = Some "Basic dTpw" /\
  truthy "Basic dTpw" = true /\
  decode_ignore request =
  "GET http://example.com/caf HTTP/1.1" ++ CRLF ++
  "Host: example.com" ++ CRLFCRLF /\
  exists k,
    let lines := split_crlf (decode_ignore request) in
    rewrite_request example_handler request =
    join_crlf (firstn k lines ++ proxy_authorization "Basic dTpw"
                 :: skipn k lines) /\
    join_crlf (firstn k lines ++ skipn k lines) = decode_ignore request /\
    (well_formed request ->
     join_crlf (firstn k lines ++ skipn k lines) = request).
Proof.
  intros request.
  split; [reflexivity | split; [reflexivity | split; [reflexivity|]]].
  exact (rewrite_inserts_one_line example_handler "Basic dTpw" request
           eq_refl eq_refl).
Defined.

Lemma not_candidate (line : string) :
  startswith "GET" line = true \/ startswith "POST" line = true \/
  contains ":" line = false ->
  candidate line = false.
Proof.
  unfold candidate, skipped. intros [H|[H|H]]; rewrite H;
    rewrite ?orb_true_r, ?andb_false_r; reflexivity.
Qed.

(** X9.  A header block of well-formed UTF-8 whose request line begins with
    [GET] or [POST], or has no colon, is rewritten correctly: read as lines,
    what is sent is the request line, the headers in their order with the
    Proxy-Authorization line somewhere among them, and the blank line. *)
Theorem get_post_rewritten_in_place (h : ProxyHandler)
  (tok request_line : string) (headers : list string) :
  auth_header h = Some tok -> truthy tok = true -> plain tok = true ->
  startswith "GET" request_line = true \/
  startswith "POST" request_line = true \/
  contains ":" request_line = false ->
  Forall no_crlf (request_line :: headers) ->
  well_formed
    (join_crlf (request_line :: headers ++ [EmptyString; EmptyString])) ->
  exists before after,
    headers = (before ++ after)%list /\
    split_crlf
      (rewrite_request h
         (join_crlf (request_line :: headers ++ [EmptyString; EmptyString]))) =
    (request_line :: before ++ proxy_authorization tok :: after
       ++ [EmptyString; EmptyString])%list.
Proof.
  intros Ha Ht Hp Hrl Hall Hwf.
  assert (Hhdr : no_crlf (proxy_authorization tok)).
  { apply plain_no_crlf. unfold proxy_authorization.
    rewrite plain_append, Hp. reflexivity. }
  assert (Hlines : Forall no_crlf
            (request_line :: headers ++ [EmptyString; EmptyString])%list).
  { inversion Hall as [|? ? H1 H2]; subst. constructor; [assumption|].
    apply Forall_app. split; [assumption|]. repeat constructor. }
  unfold rewrite_request. rewrite Ha, Ht. unfold well_formed in Hwf.
  rewrite Hwf.
  assert (Hne : (request_line :: headers ++ [EmptyString; EmptyString])%list
                <> []) by discriminate.
  rewrite (split_join _ Hne Hlines).
  destruct (inject_header_block (proxy_authorization tok) request_line headers
              (not_candidate _ Hrl)) as [k [[Hk1 Hk2] E]].
  cbv zeta in E. rewrite E.
  destruct k as [|k]; [lia|].
  exists (firstn k headers), (skipn k headers).
  split; [symmetry; apply firstn_skipn|].
  assert (Hf : firstn (S k) (request_line :: headers ++ [EmptyString; EmptyString])
               = request_line :: firstn k headers).
  { simpl. rewrite firstn_app.
    replace (k - List.length headers) with 0 by lia.
    simpl. rewrite app_nil_r. reflexivity. }
  assert (Hs : skipn (S k) (request_line :: headers ++ [EmptyString; EmptyString])
               = (skipn k headers ++ [EmptyString; EmptyString])%list).
  { simpl. rewrite skipn_app.
    replace (k - List.length headers) with 0 by lia. reflexivity. }
  rewrite Hf, Hs. apply split_join; [discriminate|].
  inversion Hlines as [|? ? H1 H2]; subst.
  apply Forall_app in H2. destruct H2 as [H2 H3].
  constructor; [assumption|].
  apply Forall_app. split.
  - rewrite <- (firstn_skipn k headers) in H2. apply Forall_app in H2. tauto.
  - constructor; [assumption|]. apply Forall_app. split; [|assumption].
    rewrite <- (firstn_skipn k headers) in H2. apply Forall_app in H2. tauto.
Qed.

Lemma get_post_rewritten_in_place_witness :
  let request_line := "GET http://example.com/caf" ++ bytes [195; 169]
                      ++ " HTTP/1.1" in
  let headers := ["Host: example.com"; "Accept: text/html"] in
  auth_header example_handler = Some "Basic dTpw" /\
  truthy "Basic dTpw" = true /\ plain "Basic dTpw" = true /\
  startswith "GET" request_line = true /\
  Forall no_crlf (request_line :: headers) /\
  well_formed
    (join_crlf (request_line :: headers ++ [EmptyString; EmptyString])) /\
  exists before after,
    headers = (before ++ after)%list /\
    split_crlf
      (rewrite_request example_handler
         (join_crlf (request_line :: headers ++ [EmptyString; EmptyString]))) =
    (request_line :: before ++ proxy_authorization "Basic dTpw" :: after
       ++ [EmptyString; EmptyString])%list.
Proof.
  intros request_line headers.
  assert (H : Forall no_crlf (request_line :: headers))
    by (repeat constructor).
  assert (Hwf : well_formed
            (join_crlf (request_line :: headers
                          ++ [EmptyString; EmptyString])))
    by reflexivity.
  do 4 (split; [reflexivity|]). split; [exact H|]. split; [exact Hwf|].
  exact (get_post_rewritten_in_place example_handler "Basic dTpw"
           request_line headers eq_refl eq_refl eq_refl
           (or_introl eq_refl) H Hwf).
Defined.

(** ** Tokens, base64 symbols and the CONNECT request *)

Lemma string_forallb_impl (p q : ascii -> bool) (s : string) :
  (forall c, p c = true -> q c = true) ->
  string_forallb p s = true -> string_forallb q s = true.
Proof.
  intros Hpq. induction s as [|c s IH]; simpl; [reflexivity|].
  intros H. apply andb_true_iff in H. destruct H as [H1 H2].
  rewrite (Hpq _ H1), (IH H2). reflexivity.
Qed.

Lemma string_forallb_of_list (p : ascii -> bool) (l : list ascii) :
  string_forallb p (string_of_list_ascii l) = forallb p l.
Proof. induction l as [|c l IH]; simpl; [reflexivity | rewrite IH; reflexivity]. Qed.

Lemma forallb_rev {A} (p : A -> bool) (l : list A) :
  forallb p (rev l) = forallb p l.
Proof.
  induction l as [|a l IH]; simpl; [reflexivity|].
  rewrite forallb_app, IH. simpl. rewrite andb_true_r. apply andb_comm.
Qed.

Lemma token_of_rev (c : ascii) (cur : list ascii) :
  forallb not_space (c :: cur) = true ->
  token (string_of_list_ascii (rev (c :: cur))).
Proof.
  intros H. split.
  - simpl. destruct (rev cur); reflexivity.
  - rewrite string_forallb_of_list, forallb_rev. exact H.
Qed.

Lemma space_width_zero (c : ascii) (s : string) :
  space_width (String c s) = 0 -> is_space c = false.
Proof. simpl. destruct (is_space c); [discriminate | reflexivity]. Qed.

Lemma split_ws_aux_tokens (s : string) :
  forall cur skip,
    forallb not_space cur = true -> Forall token (split_ws_aux cur skip s).
Proof.
  induction s as [|c s IH]; intros cur skip Hcur.
  - destruct cur as [|a cur]; simpl; [constructor|].
    constructor; [apply (token_of_rev a cur Hcur) | constructor].
  - assert (Hflush : forall n,
      Forall token
        (match cur with
         | [] => split_ws_aux [] n s
         | _ => string_of_list_ascii (rev cur) :: split_ws_aux [] n s
         end)).
    { intros n. destruct cur as [|a cur]; [apply IH; reflexivity|].
      constructor; [apply (token_of_rev a cur Hcur) | apply IH; reflexivity]. }
    cbn [split_ws_aux]. destruct skip as [|n]; [|apply Hflush].
    destruct (space_width (String c s)) as [|n] eqn:Ew; [|apply Hflush].
    apply IH. simpl. unfold not_space at 1.
    rewrite (space_width_zero _ _ Ew). exact Hcur.
Qed.

Lemma split_ws_tokens (s : string) : Forall token (split_ws s).
Proof. apply split_ws_aux_tokens. reflexivity. Qed.

Lemma not_space_plain (c : ascii) : not_space c = true -> plain_char c = true.
Proof.
  unfold not_space, plain_char. intros H.
  destruct (Ascii.eqb c CR) eqn:E1;
    [apply Ascii.eqb_eq in E1; subst c; discriminate|].
  destruct (Ascii.eqb c LF) eqn:E2;
    [apply Ascii.eqb_eq in E2; subst c; discriminate|].
  reflexivity.
Qed.

Lemma token_plain (t : string) : token t -> plain t = true.
Proof.
  intros [_ H]. exact (string_forallb_impl _ _ _ not_space_plain H).
Qed.

Lemma get_in (s : string) :
  forall k c, String.get k s = Some c -> In c (list_ascii_of_string s).
Proof.
  induction s as [|a s IH]; intros k c H; [discriminate|].
  destruct k as [|k]; simpl in H.
  - injection H as ->. left. reflexivity.
  - right. exact (IH _ _ H).
Qed.

Lemma b64_char_symbol (n : N) : b64_symbol (b64_char n) = true.
Proof.
  unfold b64_symbol, b64_char.
  destruct (String.get (N.to_nat n) b64_alphabet) as [c|] eqn:E.
  - apply orb_true_iff. left. apply existsb_exists.
    exists c. split; [exact (get_in _ _ _ E) | apply Ascii.eqb_refl].
  - apply orb_true_r.
Qed.

Lemma string_ind3 (P : string -> Prop) :
  P EmptyString ->
  (forall a, P (String a EmptyString)) ->
  (forall a b, P (String a (String b EmptyString))) ->
  (forall a b c s, P s -> P (String a (String b (String c s)))) ->
  forall s, P s.
Proof.
  intros H0 H1 H2 H3 s.
  enough (H : P s /\ (forall a, P (String a s)) /\
              (forall a b, P (String a (String b s)))) by tauto.
  induction s as [|c s [IH0 [IH1 IH2]]]; [auto|].
  repeat split; auto.
Qed.

Lemma b64encode_symbols (s : string) :
  string_forallb b64_symbol (b64encode s) = true.
Proof.
  induction s as [| a | a b | a b c s IH] using string_ind3;
    cbn [b64encode]; cbv zeta; unfold sextet; cbn [string_forallb];
    rewrite ?b64_char_symbol, ?IH; reflexivity.
Qed.

Lemma b64encode_length (s : string) :
  String.length (b64encode s) = 4 * ((String.length s + 2) / 3).
Proof.
  induction s as [| a | a b | a b c s IH] using string_ind3;
    try reflexivity.
  cbn [b64encode]. cbv zeta. cbn [String.length]. rewrite IH.
  replace (S (S (S (String.length s))) + 2)
    with (String.length s + 2 + 1 * 3) by lia.
  rewrite Nat.div_add by lia. lia.
Qed.

Lemma b64_symbol_plain (c : ascii) : b64_symbol c = true -> plain_char c = true.
Proof.
  unfold b64_symbol. intros H. apply orb_true_iff in H. destruct H as [H|H].
  - apply existsb_exists in H. destruct H as [x [Hin Hx]].
    apply Ascii.eqb_eq in Hx. subst x.
    assert (Hall : forallb plain_char (list_ascii_of_string b64_alphabet) = true)
      by reflexivity.
    rewrite forallb_forall in Hall. exact (Hall _ Hin).
  - apply Ascii.eqb_eq in H. subst c. reflexivity.
Qed.

(** A token is always built from a user name and a password. *)
Lemma init_token (parsed : parsed_url) (tok : string) :
  auth_header (init parsed) = Some tok ->
  exists u p, tok = "Basic " ++ b64encode (u ++ ":" ++ p).
Proof.
  unfold init; cbn [auth_header]. intros H.
  destruct (username parsed) as [u|]; [|discriminate].
  destruct (password parsed) as [p|]; [|discriminate].
  destruct (truthy u && truthy p); [|discriminate].
  injection H as <-. exists u, p. reflexivity.
Qed.

Lemma basic_plain (s : string) : plain ("Basic " ++ b64encode s) = true.
Proof.
  rewrite plain_append. apply andb_true_iff. split; [reflexivity|].
  exact (string_forallb_impl _ _ _ b64_symbol_plain (b64encode_symbols s)).
Qed.

(** X10.  Whatever the credentials in the upstream URL, a token is
    ["Basic "] followed by a non-empty multiple of four base64 symbols, and
    it holds no CR and no LF: credentials cannot break the header line. *)
Theorem auth_token_is_header_safe (parsed : parsed_url) (tok : string) :
  auth_header (init parsed) = Some tok ->
  exists b n,
    tok = "Basic " ++ b /\
    string_forallb b64_symbol b = true /\
    String.length b = 4 * S n /\
    plain tok = true.
Proof.
  intros H. destruct (init_token parsed tok H) as [u [p ->]].
  exists (b64encode (u ++ ":" ++ p)),
         ((String.length (u ++ ":" ++ p) + 2) / 3 - 1).
  split; [reflexivity|]. split; [apply b64encode_symbols|].
  split; [|apply basic_plain].
  rewrite b64encode_length.
  assert (1 <= (String.length (u ++ ":" ++ p) + 2) / 3).
  { rewrite length_append. simpl String.length.
    replace (String.length u + S (String.length p) + 2)
      with (String.length u + String.length p + 1 * 3) by lia.
    rewrite Nat.div_add by lia. lia. }
  lia.
Qed.

Lemma auth_token_is_header_safe_witness :
  let parsed := {| hostname := Some "proxy.example"; port := None;
                   username := Some "user"; password := Some "pass" |} in
  auth_header (init parsed) = Some "Basic dXNlcjpwYXNz" /\
  exists b n,
    "Basic dXNlcjpwYXNz" = "Basic " ++ b /\
    string_forallb b64_symbol b = true /\
    String.length b = 4 * S n /\
    plain "Basic dXNlcjpwYXNz" = true.
Proof.
  intros parsed. split; [reflexivity|].
  exact (auth_token_is_header_safe parsed "Basic dXNlcjpwYXNz" eq_refl).
Defined.

Lemma regroup3 (a b c d : string) : a ++ b ++ c ++ d = (a ++ b ++ c) ++ d.
Proof. rewrite !append_assoc. reflexivity. Qed.

(** X3.  Whatever the upstream URL and the client's request line, the
    CONNECT request written upstream is, read as lines: the CONNECT line and
    the Host line for the second token of the request line, then exactly one
    Proxy-Authorization line when there is a token and none otherwise, then
    the blank line. *)
Theorem connect_request_lines (parsed : parsed_url) (request_line : string) :
  2 <= List.length (split_ws request_line) ->
  let target := nth 1 (split_ws request_line) EmptyString in
  split_crlf (connect_request (init parsed) target) =
  ("CONNECT " ++ target ++ " HTTP/1.1") :: ("Host: " ++ target) ::
  (match auth_header (init parsed) with
   | Some tok => [proxy_authorization tok]
   | None => []
   end ++ [EmptyString; EmptyString])%list.
Proof.
  intros Hlen target.
  assert (Ht : plain target = true).
  { apply token_plain.
    pose proof (split_ws_tokens request_line) as Hall.
    rewrite Forall_forall in Hall. apply Hall. apply nth_In. lia. }
  assert (H1 : no_crlf ("CONNECT " ++ target ++ " HTTP/1.1")).
  { apply plain_no_crlf. rewrite !plain_append, Ht. reflexivity. }
  assert (H2 : no_crlf ("Host: " ++ target)).
  { apply plain_no_crlf. rewrite !plain_append, Ht. reflexivity. }
  unfold connect_request.
  rewrite (regroup3 "CONNECT " target " HTTP/1.1").
  rewrite split_crlf_line by exact H1.
  rewrite <- (append_assoc "Host: " target).
  rewrite split_crlf_line by exact H2.
  destruct (auth_header (init parsed)) as [tok|] eqn:Ea.
  - destruct (init_token parsed tok Ea) as [u [p Eb]].
    assert (Htr : truthy tok = true) by (rewrite Eb; reflexivity).
    assert (Hp : plain tok = true) by (rewrite Eb; apply basic_plain).
    simpl truthy_opt. rewrite Htr. rewrite append_assoc.
    rewrite split_crlf_line.
    + reflexivity.
    + apply plain_no_crlf. unfold proxy_authorization.
      rewrite plain_append, Hp. reflexivity.
  - reflexivity.
Qed.

Lemma connect_request_lines_witness :
  2 <= List.length (split_ws "CONNECT example.com:443 HTTP/1.1") /\
  split_crlf (connect_request example_handler "example.com:443") =
  ["CONNECT example.com:443 HTTP/1.1"; "Host: example.com:443";
   "Proxy-Authorization: Basic dTpw"; EmptyString; EmptyString].
Proof.
  assert (H : 2 <= List.length (split_ws "CONNECT example.com:443 HTTP/1.1"))
    by (vm_compute; lia).
  split; [exact H|].
  exact (connect_request_lines
           {| hostname := Some "proxy.example"; port := None;
              username := Some "u"; password := Some "p" |}
           "CONNECT example.com:443 HTTP/1.1" H).
Defined.

(** ** Failures before the relay, and the response path *)

Lemma answer_bad_gateway_run (w : world) :
  exists w', answer_bad_gateway w = (Ok tt, w') /\
             trace w' = (trace w ++ failure_answer w)%list.
Proof.
  unfold answer_bad_gateway, try_except, sendall, failure_answer, ret.
  simpl tx. destruct (client_tx w) as [[|n]|]; simpl; eexists; split;
    try reflexivity; simpl; rewrite ?app_nil_r; reflexivity.
Qed.

(** X1.  A CONNECT request line with fewer than two tokens is answered with
    [400 Bad Request] and nothing else happens: no dial, nothing written to
    the upstream proxy.  When the client can no longer be written to, nothing
    happens at all.  The handler returns normally either way. *)
Theorem malformed_connect_rejected (fuel : nat) (h : ProxyHandler)
  (request_line : string) (w : world) :
  List.length (split_ws request_line) < 2 ->
  fst (handle_connect fuel h request_line w) = Ok tt /\
  events_of (handle_connect fuel h request_line) w =
  (if can_send (client_tx w) then [ESend Client bad_request] else []).
Proof.
  intros Hlen.
  assert (Hrun : exists w',
    handle_connect fuel h request_line w = (Ok tt, w') /\
    trace w' = (trace w ++ (if can_send (client_tx w)
                            then [ESend Client bad_request] else []))%list).
  { unfold handle_connect.
    destruct (Nat.ltb_spec (List.length (split_ws request_line)) 2) as [_|?];
      [|lia].
    unfold try_except, sendall. simpl tx.
    destruct (client_tx w) as [[|n]|] eqn:E; simpl can_send; cbv iota.
    - destruct (answer_bad_gateway_run w) as [w' [E' T]].
      exists w'. split; [exact E'|].
      rewrite T. unfold failure_answer. rewrite E. reflexivity.
    - eexists. split; reflexivity.
    - eexists. split; reflexivity. }
  destruct Hrun as [w' [E T]]. rewrite E. split; [reflexivity|].
  exact (events_of_run _ _ _ _ _ E T).
Qed.

(** [CONNECT] followed by a space and a no-break space (U+00A0) is one
    token. *)
Lemma malformed_connect_rejected_witness :
  let request_line := "CONNECT " ++ bytes [194; 160] in
  List.length (split_ws request_line) < 2 /\
  events_of (handle_connect 1 example_handler request_line) (fresh [] [] []) =
  [ESend Client bad_request].
Proof.
  intros request_line.
  assert (H : List.length (split_ws request_line) < 2) by (vm_compute; lia).
  split; [exact H|].
  exact (proj2 (malformed_connect_rejected 1 example_handler request_line
                  (fresh [] [] []) H)).
Defined.

(** X2.  When the upstream proxy cannot be dialled, both request handlers
    answer [502 Bad Gateway] (if the client can still be written to), write
    nothing to the upstream proxy and return normally. *)
Theorem dial_failure_answers_502 (fuel : nat) (h : ProxyHandler)
  (request_line request_data : string) (w : world) :
  dial_ok w = false ->
  2 <= List.length (split_ws request_line) ->
  let refused :=
    EConnect (upstream_host h) (upstream_port h) :: failure_answer w in
  (fst (handle_connect fuel h request_line w) = Ok tt /\
   events_of (handle_connect fuel h request_line) w = refused) /\
  (fst (handle_http h request_data w) = Ok tt /\
   events_of (handle_http h request_data) w = refused).
Proof.
  intros Hdial Hlen refused.
  set (c := EConnect (upstream_host h) (upstream_port h)).
  destruct (answer_bad_gateway_run (emit c w)) as [w' [E T]].
  assert (Hc : handle_connect fuel h request_line w = (Ok tt, w')).
  { unfold handle_connect.
    destruct (Nat.ltb_spec (List.length (split_ws request_line)) 2) as [?|_];
      [lia|].
    rewrite try_bind. unfold dial. rewrite Hdial. exact E. }
  assert (Hh : handle_http h request_data w = (Ok tt, w')).
  { unfold handle_http. rewrite try_bind. unfold dial. rewrite Hdial.
    exact E. }
  assert (Ht : trace w' = (trace w ++ refused)%list).
  { rewrite T. simpl. rewrite <- app_assoc. reflexivity. }
  rewrite Hc, Hh. repeat split;
    try (eapply events_of_run; [eassumption | exact Ht]).
Qed.

(** A request line whose two tokens are separated by a no-break space
    (U+00A0) only. *)
Lemma dial_failure_answers_502_witness :
  let request_line := "CONNECT" ++ bytes [194; 160] ++ "example.com:443" in
  dial_ok refused_world = false /\
  2 <= List.length (split_ws request_line) /\
  events_of (handle_connect 1 example_handler request_line) refused_world =
  [EConnect (Some "proxy.example") 3128; ESend Client bad_gateway].
Proof.
  intros request_line.
  assert (H : 2 <= List.length (split_ws request_line))
    by (vm_compute; lia).
  split; [reflexivity | split; [exact H|]].
  exact (proj2 (proj1 (dial_failure_answers_502 1 example_handler
                         request_line EmptyString
                         refused_world eq_refl H))).
Defined.

Lemma sent_passed_back (l : list recv_event) :
  sent Client (passed_back l) = data_of l /\
  sent Upstream (passed_back l) = EmptyString.
Proof.
  induction l as [|[d| |] l [IH1 IH2]]; simpl; auto.
  rewrite IH1. auto.
Qed.

Lemma forward_response_run (l : list recv_event) :
  forall w,
    Forall (fun e => delivers e = true) l -> client_tx w = None ->
    exists w',
      forward_response l w = (Ok tt, w') /\
      trace w' = (trace w ++ passed_back l)%list.
Proof.
  induction l as [|e l IH]; intros w Hall Hc.
  - exists w. simpl. rewrite app_nil_r. split; reflexivity.
  - inversion Hall as [|? ? He Hl]; subst.
    destruct e as [d| |]; [|discriminate..]. simpl in He.
    cbn [forward_response]. unfold bind at 1. rewrite He.
    unfold bind at 1. unfold sendall at 1. cbn [tx set_rx client_tx].
    rewrite Hc.
    destruct (IH (emit (ESend Client d) (set_rx Upstream l w)) Hl Hc)
      as [w' [E T]].
    exists w'. split; [exact E|].
    rewrite T. simpl. rewrite <- app_assoc. reflexivity.
Qed.

(** X6.  A plain HTTP exchange in which nothing fails: the upstream proxy
    is dialled and sent the request, every chunk of its answer is written to
    the client as it is until the stream ends, and then the upstream socket
    is closed. *)
Theorem http_response_passed_back (h : ProxyHandler) (request_data : string)
  (w : world) :
  dial_ok w = true -> client_tx w = None -> upstream_tx w = None ->
  Forall (fun e => delivers e = true) (upstream_rx w) ->
  fst (handle_http h request_data w) = Ok tt /\
  events_of (handle_http h request_data) w =
  (EConnect (upstream_host h) (upstream_port h)
   :: ESend Upstream (rewrite_request h request_data)
   :: passed_back (upstream_rx w) ++ [EClose Upstream])%list /\
  sent Client (events_of (handle_http h request_data) w) =
  data_of (upstream_rx w).
Proof.
  intros Hdial Hc Hu Hall.
  set (c := EConnect (upstream_host h) (upstream_port h)).
  set (x := ESend Upstream (rewrite_request h request_data)).
  destruct (forward_response_run (upstream_rx w) (emit x (emit c w)) Hall Hc)
    as [w' [E T]].
  assert (Hrun : handle_http h request_data w =
                 (Ok tt, emit (EClose Upstream) w')).
  { unfold handle_http. rewrite try_bind. unfold dial. rewrite Hdial.
    rewrite try_bind. unfold sendall. cbn [tx emit upstream_tx].
    rewrite Hu. fold c. fold x.
    unfold try_except, bind. cbn [upstream_rx emit]. rewrite E. reflexivity. }
  assert (Hev : events_of (handle_http h request_data) w =
                (c :: x :: passed_back (upstream_rx w) ++ [EClose Upstream])%list).
  { eapply events_of_run; [exact Hrun|]. simpl. rewrite T. simpl.
    rewrite <- !app_assoc. reflexivity. }
  rewrite Hrun, Hev. split; [reflexivity | split; [reflexivity|]].
  simpl. rewrite sent_app. simpl.
  rewrite (proj1 (sent_passed_back _)). apply append_nil_r.
Qed.

(** A request whose path has the one byte E9, which is not UTF-8: what
    reaches the upstream proxy is the request without that byte and with
    the header line. *)
Lemma http_response_passed_back_witness :
  let request := "GET http://example.com/caf" ++ bytes [233] ++ " HTTP/1.1"
                 ++ CRLFCRLF in
  let w := fresh [] [RData ("HTTP/1.1 200 OK" ++ CRLFCRLF); RData "body"] [] in
  dial_ok w = true /\ client_tx w = None /\ upstream_tx w = None /\
  Forall (fun e => delivers e = true) (upstream_rx w) /\
  rewrite_request example_handler request =
  "GET http://example.com/caf HTTP/1.1" ++ CRLF ++
  "Proxy-Authorization: Basic dTpw" ++ CRLFCRLF /\
  events_of (handle_http example_handler request) w =
  [EConnect (Some "proxy.example") 3128;
   ESend Upstream (rewrite_request example_handler request);
   ESend Client ("HTTP/1.1 200 OK" ++ CRLFCRLF); ESend Client "body";
   EClose Upstream].
Proof.
  intros request w.
  assert (H : Forall (fun e => delivers e = true) (upstream_rx w))
    by (repeat constructor).
  do 3 (split; [reflexivity|]). split; [exact H|]. split; [reflexivity|].
  exact (proj1 (proj2 (http_response_passed_back example_handler request w
                         eq_refl eq_refl eq_refl H))).
Defined.

(** X14.  A read loop that returns holds what it had plus the chunks it
    consumed, and it consumed no chunk more than needed: before each of its
    [recv] calls the stop string was not yet in the buffer. *)
Theorem read_loop_stops_at_first_match (stop : string) (l : list recv_event) :
  forall acc r rest,
    recv_until stop acc l = (Ok r, rest) ->
    exists k,
      r = acc ++ data_of (firstn k l) /\ rest = skipn k l /\
      forall j, j < k -> contains stop (acc ++ data_of (firstn j l)) = false.
Proof.
  induction l as [|[d| |] l IH]; intros acc r rest; simpl;
    destruct (contains stop acc) eqn:Ec; intros H;
    try (injection H as <- <-; exists 0; simpl;
         rewrite append_nil_r; split; [reflexivity|];
         split; [reflexivity | intros; lia]);
    try discriminate.
  destruct (truthy d) eqn:Td.
  - destruct (IH _ _ _ H) as [k [-> [-> Hmin]]]. exists (S k). simpl.
    rewrite append_assoc. split; [reflexivity | split; [reflexivity|]].
    intros [|j] Hj; simpl.
    + rewrite append_nil_r. exact Ec.
    + rewrite <- append_assoc. apply Hmin. lia.
  - injection H as <- <-. exists 1. simpl.
    rewrite (truthy_false _ Td). simpl. rewrite append_nil_r.
    split; [reflexivity | split; [destruct l; reflexivity|]].
    intros j Hj. replace j with 0 by lia. simpl.
    rewrite append_nil_r. exact Ec.
Qed.

Lemma read_loop_stops_at_first_match_witness :
  let l := [RData "GET / HT"; RData ("TP/1.1" ++ CRLF); RData "Host: a"] in
  recv_until CRLF EmptyString l =
  (Ok ("GET / HTTP/1.1" ++ CRLF), [RData "Host: a"]) /\
  exists k,
    "GET / HTTP/1.1" ++ CRLF = EmptyString ++ data_of (firstn k l) /\
    [RData "Host: a"] = skipn k l /\
    forall j, j < k ->
              contains CRLF (EmptyString ++ data_of (firstn j l)) = false.
Proof.
  intros l. split; [reflexivity|].
  exact (read_loop_stops_at_first_match CRLF l EmptyString _ _ eq_refl).
Defined.

(** X11.  A port given in the upstream URL, other than 0, is the port of
    every connection a handler run dials, and the host is the URL's. *)
Theorem explicit_upstream_address (parsed : parsed_url) (p : Z) :
  port parsed = Some p -> p <> 0%Z ->
  forall fuel w host q,
    In (EConnect host q) (events_of (handle_client fuel (init parsed)) w) ->
    host = hostname parsed /\ q = p.
Proof.
  intros Hp Hnz fuel w host q Hin.
  destruct (run_shape_connect _ _ _ _ _
              (handle_client_events fuel (init parsed) w) Hin) as [-> ->].
  unfold init; simpl. rewrite Hp. unfold port_or_default.
  destruct (Z.eqb_spec p 0); [contradiction|]. split; reflexivity.
Qed.

Lemma explicit_upstream_address_witness :
  let parsed := {| hostname := Some "proxy.example"; port := Some 8080%Z;
                   username := None; password := None |} in
  port parsed = Some 8080%Z /\ 8080%Z <> 0%Z /\
  forall fuel w host q,
    In (EConnect host q) (events_of (handle_client fuel (init parsed)) w) ->
    host = Some "proxy.example" /\ q = 8080%Z.
Proof.
  intros parsed.
  assert (H : 8080%Z <> 0%Z) by discriminate.
  split; [reflexivity | split; [exact H|]].
  exact (explicit_upstream_address parsed 8080%Z eq_refl H).
Defined.

(** ** The relay copies bytes *)

Lemma data_of_app (a b : list recv_event) :
  data_of (a ++ b) = data_of a ++ data_of b.
Proof.
  induction a as [|[d| |] a IH]; simpl; [reflexivity | | exact IH..].
  rewrite IH, append_assoc. reflexivity.
Qed.

Lemma relayed_refl (w : world) : relayed w w.
Proof.
  exists [], [], []. simpl. rewrite app_nil_r. repeat split.
Qed.

Lemma relayed_trans (w1 w2 w3 : world) :
  relayed w1 w2 -> relayed w2 w3 -> relayed w1 w3.
Proof.
  intros [cc [uc [l [Hc [Hu [Ht [Su Sc]]]]]]]
         [cc' [uc' [l' [Hc' [Hu' [Ht' [Su' Sc']]]]]]].
  exists (cc ++ cc')%list, (uc ++ uc')%list, (l ++ l')%list.
  rewrite Hc, Hc', Hu, Hu', Ht', Ht, !sent_app, !data_of_app, Su, Su', Sc, Sc'.
  rewrite <- !app_assoc. repeat split.
Qed.

Lemma relays_ret {A} (a : A) : relays (ret a).
Proof. intros w H. split; [apply relayed_refl | exact H]. Qed.

Lemma relays_bind {A B} (m : M A) (k : A -> M B) :
  relays m -> (forall a, relays (k a)) -> relays (bind m k).
Proof.
  intros Hm Hk w Hw. unfold bind. destruct (Hm w Hw) as [R O].
  destruct (m w) as [[a| |] w1]; simpl in R, O; [|split; assumption..].
  destruct (Hk a w1 O) as [R' O'].
  split; [exact (relayed_trans _ _ _ R R') | exact O'].
Qed.

Lemma relayed_silent (w w' : world) (e : event) :
  client_rx w' = client_rx w -> upstream_rx w' = upstream_rx w ->
  trace w' = (trace w ++ [e])%list ->
  sent Upstream [e] = EmptyString -> sent Client [e] = EmptyString ->
  relayed w w'.
Proof.
  intros Hc Hu Ht Su Sc. exists [], [], [e].
  rewrite Hc, Hu, Ht, Su, Sc. repeat split.
Qed.

Lemma relays_select : relays select_.
Proof.
  intros w Hw. unfold select_.
  destruct (selects w) as [|[rc ru exc|] rest]; simpl;
    (split; [apply relayed_silent with (e := ESelect); reflexivity | exact Hw]).
Qed.

Lemma relays_close (s : side) : relays (close s).
Proof.
  intros w Hw. unfold close. simpl.
  split; [apply relayed_silent with (e := EClose s); reflexivity | exact Hw].
Qed.

Lemma relays_pump_client : relays (pump Client Upstream).
Proof.
  intros w [Hc Hu]. unfold pump, bind, recv, sendall, ret. simpl rx.
  destruct (client_rx w) as [|[d| |] rest] eqn:Ec.
  - simpl. split; [apply relayed_refl | split; assumption].
  - destruct (truthy d) eqn:Td; cbn [tx set_rx upstream_tx]; rewrite ?Hu;
      simpl; (split; [|split; assumption]).
    + exists [RData d], [], [ESend Upstream d]. simpl. rewrite Ec.
      repeat split.
    + exists [RData d], [], []. simpl.
      rewrite Ec, app_nil_r, (truthy_false _ Td). repeat split.
  - simpl. split; [|split; assumption].
    exists [RErr], [], []. simpl. rewrite Ec, app_nil_r. repeat split.
  - simpl. split; [apply relayed_refl | split; assumption].
Qed.

Lemma relays_pump_upstream : relays (pump Upstream Client).
Proof.
  intros w [Hc Hu]. unfold pump, bind, recv, sendall, ret. simpl rx.
  destruct (upstream_rx w) as [|[d| |] rest] eqn:Ec.
  - simpl. split; [apply relayed_refl | split; assumption].
  - destruct (truthy d) eqn:Td; cbn [tx set_rx client_tx]; rewrite ?Hc;
      simpl; (split; [|split; assumption]).
    + exists [], [RData d], [ESend Client d]. simpl. rewrite Ec.
      repeat split.
    + exists [], [RData d], []. simpl.
      rewrite Ec, app_nil_r, (truthy_false _ Td). repeat split.
  - simpl. split; [|split; assumption].
    exists [], [RErr], []. simpl. rewrite Ec, app_nil_r. repeat split.
  - simpl. split; [|split; assumption].
    exists [], [RWait], []. simpl. rewrite Ec, app_nil_r. repeat split.
Qed.

Lemma relays_relay_data (fuel : nat) : relays (relay_data fuel).
Proof.
  induction fuel as [|fuel IH].
  - intros w Hw. split; [apply relayed_refl | exact Hw].
  - cbn [relay_data]. apply relays_bind; [apply relays_select|].
    intros [[rc ru] exc]. unfold relay_turn.
    destruct exc; [apply relays_ret|].
    apply relays_bind.
    { destruct rc; [apply relays_pump_client | apply relays_ret]. }
    intros [|]; [apply relays_ret|].
    apply relays_bind.
    { destruct ru; [apply relays_pump_upstream | apply relays_ret]. }
    intros [|]; [apply relays_ret | exact IH].
Qed.

Lemma relayed_events {A} (m : M A) (w : world) :
  relayed w (snd (m w)) ->
  exists cc uc,
    client_rx w = (cc ++ client_rx (snd (m w)))%list /\
    upstream_rx w = (uc ++ upstream_rx (snd (m w)))%list /\
    sent Upstream (events_of m w) = data_of cc /\
    sent Client (events_of m w) = data_of uc.
Proof.
  intros [cc [uc [l [Hc [Hu [Ht [Su Sc]]]]]]].
  exists cc, uc. rewrite (events_of_app _ _ _ Ht). auto.
Qed.

(** X4.  As long as no [sendall] fails, what the relay has written to the
    upstream proxy is exactly what it has read from the client, in order,
    and what it has written to the client is exactly what it has read from
    the upstream proxy: [cc] and [uc] are the script entries it consumed. *)
Theorem relay_copies_verbatim (fuel : nat) (w : world) :
  client_tx w = None -> upstream_tx w = None ->
  let w' := snd (relay_data fuel w) in
  exists cc uc,
    client_rx w = (cc ++ client_rx w')%list /\
    upstream_rx w = (uc ++ upstream_rx w')%list /\
    sent Upstream (events_of (relay_data fuel) w) = data_of cc /\
    sent Client (events_of (relay_data fuel) w) = data_of uc.
Proof.
  intros Hc Hu w'. apply relayed_events.
  exact (proj1 (relays_relay_data fuel w (conj Hc Hu))).
Qed.

Lemma relay_copies_verbatim_witness :
  let w := fresh [RData "ping"] [RData "pong"] [Ready true true false] in
  client_tx w = None /\ upstream_tx w = None /\
  exists cc uc,
    client_rx w = (cc ++ client_rx (snd (relay_data 2 w)))%list /\
    upstream_rx w = (uc ++ upstream_rx (snd (relay_data 2 w)))%list /\
    sent Upstream (events_of (relay_data 2) w) = data_of cc /\
    sent Client (events_of (relay_data 2) w) = data_of uc.
Proof.
  intros w. split; [reflexivity | split; [reflexivity|]].
  exact (relay_copies_verbatim 2 w eq_refl eq_refl).
Defined.

(** The negotiation of a tunnel in which nothing fails. *)
Lemma handle_connect_negotiated (fuel : nat) (h : ProxyHandler)
  (request_line response : string) (rest : list recv_event) (w : world) :
  2 <= List.length (split_ws request_line) ->
  dial_ok w = true -> client_tx w = None -> upstream_tx w = None ->
  recv_until CRLFCRLF EmptyString (upstream_rx w) = (Ok response, rest) ->
  contains "200" (first_line response) = true ->
  handle_connect fuel h request_line w =
  try_except (relay_data fuel ;; close Upstream) answer_bad_gateway
    (negotiated h (nth 1 (split_ws request_line) EmptyString) response rest w).
Proof.
  intros Hparts Hdial Hctx Hutx Hrecv H200. unfold handle_connect.
  destruct (Nat.ltb_spec (List.length (split_ws request_line)) 2) as [?|_];
    [lia|].
  unfold try_except, bind, dial, sendall, read_until.
  rewrite Hdial. cbv beta iota. cbn [tx emit upstream_tx].
  rewrite Hutx. cbv beta iota. cbn [rx emit upstream_rx].
  rewrite Hrecv. cbv beta iota. cbn [tx emit set_rx client_tx].
  rewrite Hctx. cbv beta iota. rewrite H200. reflexivity.
Qed.

(** X5.  An established tunnel end to end, when ["200"] occurs in the status
    line of the response: the upstream proxy receives the CONNECT request
    followed by the bytes read from the client, and the client receives the
    upstream response followed by the bytes read from the upstream proxy,
    followed by nothing or, when the relay ended with an exception, by the
    502 answer. *)
Theorem tunnel_is_transparent (fuel : nat) (h : ProxyHandler)
  (request_line response status : string) (rest : list recv_event)
  (w : world) :
  2 <= List.length (split_ws request_line) ->
  dial_ok w = true -> client_tx w = None -> upstream_tx w = None ->
  recv_until CRLFCRLF EmptyString (upstream_rx w) = (Ok response, rest) ->
  status_line response status ->
  contains "200" status = true ->
  let target := nth 1 (split_ws request_line) EmptyString in
  let l := events_of (handle_connect fuel h request_line) w in
  let w' := snd (handle_connect fuel h request_line w) in
  exists cc uc tail,
    client_rx w = (cc ++ client_rx w')%list /\
    rest = (uc ++ upstream_rx w')%list /\
    sent Upstream l = connect_request h target ++ data_of cc /\
    sent Client l = response ++ data_of uc ++ tail /\
    (tail = EmptyString \/ tail = bad_gateway).
Proof.
  intros Hparts Hdial Hctx Hutx Hrecv Hstatus H200 target l w'.
  rewrite <- (first_line_status _ _ Hstatus) in H200.
  pose proof (handle_connect_negotiated fuel h request_line response rest w
                Hparts Hdial Hctx Hutx Hrecv H200) as Heq.
  fold target in Heq.
  set (w1 := negotiated h target response rest w) in *.
  assert (Ho : open_tx w1) by (split; assumption).
  assert (Ht1 : trace w1 =
    (trace w ++ [EConnect (upstream_host h) (upstream_port h);
                 ESend Upstream (connect_request h target);
                 ESend Client response])%list).
  { unfold w1, negotiated. simpl. rewrite <- !app_assoc. reflexivity. }
  assert (Hrel : relays (relay_data fuel ;; close Upstream)).
  { apply relays_bind; [apply relays_relay_data|].
    intros _. apply relays_close. }
  destruct (Hrel w1 Ho) as [[cc [uc [lr [Hc [Hu [Ht [Su Sc]]]]]]] [Oc Ou]].
  assert (Hfin : exists tl,
    trace w' = (trace w1 ++ lr ++ tl)%list /\
    client_rx w' = client_rx (snd ((relay_data fuel ;; close Upstream) w1)) /\
    upstream_rx w' = upstream_rx (snd ((relay_data fuel ;; close Upstream) w1)) /\
    sent Upstream tl = EmptyString /\
    (sent Client tl = EmptyString \/ sent Client tl = bad_gateway)).
  { unfold w'. rewrite Heq. unfold try_except.
    destruct ((relay_data fuel ;; close Upstream) w1) as [[[]| |] w2];
      simpl in *.
    - exists []. rewrite app_nil_r.
      repeat (split; [solve [auto]|]). auto.
    - unfold answer_bad_gateway, try_except, sendall. simpl tx. rewrite Oc.
      simpl. exists [ESend Client bad_gateway].
      rewrite Ht, <- app_assoc.
      repeat (split; [solve [auto]|]). auto.
    - exists []. rewrite app_nil_r.
      repeat (split; [solve [auto]|]). auto. }
  destruct Hfin as [tl [Tw' [Cw' [Uw' [Stu Stc]]]]].
  exists cc, uc, (sent Client tl).
  assert (El : l = ([EConnect (upstream_host h) (upstream_port h);
                     ESend Upstream (connect_request h target);
                     ESend Client response] ++ lr ++ tl)%list).
  { unfold l. apply events_of_app. fold w'. rewrite Tw', Ht1, <- app_assoc.
    reflexivity. }
  rewrite Cw', Uw'. split; [exact Hc|]. split; [exact Hu|].
  rewrite El, !sent_app, Su, Sc, Stu. simpl.
  rewrite !append_nil_r. auto.
Qed.

(** The target is the second token, also when a no-break space (U+00A0) is
    what separates it from [CONNECT]. *)
Lemma tunnel_is_transparent_witness :
  let request_line := "CONNECT" ++ bytes [194; 160]
                      ++ "example.com:443 HTTP/1.1" in
  let status := "HTTP/1.1 200 Connection established" in
  let response := status ++ CRLFCRLF in
  let w := fresh [RData "hello"] [RData response; RData "world"]
                 [Ready true true false; Ready true false false] in
  2 <= List.length (split_ws request_line) /\
  dial_ok w = true /\ client_tx w = None /\ upstream_tx w = None /\
  recv_until CRLFCRLF EmptyString (upstream_rx w) =
  (Ok response, [RData "world"]) /\
  status_line response status /\
  contains "200" status = true /\
  exists cc uc tail,
    client_rx w =
    (cc ++ client_rx (snd (handle_connect 3 example_handler request_line w)))%list /\
    [RData "world"] =
    (uc ++ upstream_rx (snd (handle_connect 3 example_handler request_line w)))%list /\
    sent Upstream (events_of (handle_connect 3 example_handler request_line) w) =
    connect_request example_handler "example.com:443" ++ data_of cc /\
    sent Client (events_of (handle_connect 3 example_handler request_line) w) =
    response ++ data_of uc ++ tail /\
    (tail = EmptyString \/ tail = bad_gateway).
Proof.
  intros request_line status response w.
  assert (H1 : 2 <= List.length (split_ws request_line)) by (vm_compute; lia).
  assert (H2 : recv_until CRLFCRLF EmptyString (upstream_rx w) =
               (Ok response, [RData "world"])) by reflexivity.
  assert (H3 : status_line response status).
  { split; [reflexivity|]. right. exists CRLF. reflexivity. }
  assert (H4 : contains "200" status = true) by reflexivity.
  split; [exact H1|]. do 3 (split; [reflexivity|]).
  split; [exact H2 | split; [exact H3 | split; [exact H4|]]].
  exact (tunnel_is_transparent 3 example_handler request_line response status
           [RData "world"] w H1 eq_refl eq_refl eq_refl H2 H3 H4).
Defined.

(** ** Exception safety and progress *)

Lemma emits_with_semaphore {A} (P : event -> Prop) (body : M A) :
  P EAcquire -> P ERelease -> emits P body -> emits P (with_semaphore body).
Proof.
  intros Ha Hr Hb. unfold with_semaphore.
  apply emits_bind.
  - apply emits_one with (e := EAcquire); auto.
  - intros _. apply emits_finally; [exact Hb|].
    apply emits_one with (e := ERelease); auto.
Qed.

Lemma emits_route_open (fuel : nat) (h : ProxyHandler)
  (request_data request_line : string) :
  emits not_client_close (route fuel h request_data request_line).
Proof.
  assert (Hs : forall s d, not_client_close (ESend s d))
    by (intros s d; discriminate).
  assert (Hbg : emits not_client_close answer_bad_gateway)
    by (apply emits_answer_bad_gateway; auto).
  unfold route. destruct (startswith "CONNECT" request_line).
  - unfold handle_connect. apply emits_try; [|exact Hbg].
    destruct (List.length (split_ws request_line) <? 2)%nat;
      [apply emits_sendall; auto|].
    apply emits_bind; [apply emits_dial; discriminate|]. intros _.
    apply emits_bind; [apply emits_sendall; auto|]. intros _.
    apply emits_bind; [apply emits_read_until|]. intros response.
    apply emits_bind; [apply emits_sendall; auto|]. intros _.
    apply emits_bind; [|intros _; apply emits_close; discriminate].
    destruct (contains "200" (first_line response));
      [apply emits_relay_data; [discriminate | auto] | apply emits_ret].
  - apply emits_bind; [apply emits_read_until|]. intros d.
    unfold handle_http. apply emits_try; [|exact Hbg].
    apply emits_bind; [apply emits_dial; discriminate|]. intros _.
    apply emits_bind; [apply emits_sendall; auto|]. intros _.
    apply emits_bind; [|intros _; apply emits_close; discriminate].
    intros w.
    apply (emits_forward_response not_client_close (upstream_rx w)). auto.
Qed.

(** The part of [handle_client] inside [try ... finally]. *)
Lemma handle_client_inner (fuel : nat) (h : ProxyHandler) (w : world) :
  exists (r : res unit) w1 l,
    r <> Exn /\ trace w1 = (trace w ++ l)%list /\ Forall not_client_close l /\
    handle_client fuel h w =
    match r with
    | OutOfFuel => (OutOfFuel, w1)
    | _ => (Ok tt, emit (EClose Client) w1)
    end.
Proof.
  set (inner :=
    try_except
      (request_data <- read_until Client CRLF EmptyString ;;
       if negb (truthy request_data) then ret tt
       else with_semaphore
              (route fuel h request_data
                 (decode_ignore (first_line request_data))))
      (ret tt)).
  assert (He : emits not_client_close inner).
  { unfold inner. apply emits_try; [|apply emits_ret].
    apply emits_bind; [apply emits_read_until|]. intros d.
    destruct (negb (truthy d)); [apply emits_ret|].
    apply emits_with_semaphore; try discriminate. apply emits_route_open. }
  destruct (He w) as [l [El Pl]].
  assert (Hn : fst (inner w) <> Exn).
  { unfold inner, try_except.
    destruct ((request_data <- read_until Client CRLF EmptyString ;;
               if negb (truthy request_data) then ret tt
               else with_semaphore
                      (route fuel h request_data
                         (decode_ignore (first_line request_data)))) w)
      as [[[]| |] w2]; simpl; discriminate. }
  change (handle_client fuel h w)
    with (finally inner (try_except (close Client) (ret tt)) w).
  unfold finally. destruct (inner w) as [[[]| |] w1]; simpl in *.
  - exists (Ok tt), w1, l. repeat split; auto; discriminate.
  - congruence.
  - exists OutOfFuel, w1, l. repeat split; auto; discriminate.
Qed.

(** X7.  [handle_client] never raises, and when it returns it has closed
    the client socket exactly once, as the last thing it did. *)
Theorem handler_is_exception_safe (fuel : nat) (h : ProxyHandler) (w : world) :
  fst (handle_client fuel h w) <> Exn /\
  (fst (handle_client fuel h w) = Ok tt ->
   exists l,
     events_of (handle_client fuel h) w = (l ++ [EClose Client])%list /\
     ~ In (EClose Client) l).
Proof.
  destruct (handle_client_inner fuel h w) as [r [w1 [l [Hr [Ht [Hl E]]]]]].
  assert (Hnot : ~ In (EClose Client) l).
  { intros Hin. rewrite Forall_forall in Hl. exact (Hl _ Hin eq_refl). }
  destruct r as [[]| |]; [|congruence|].
  - split; [rewrite E; discriminate|]. intros _. exists l.
    split; [|exact Hnot].
    eapply events_of_run; [exact E|]. simpl. rewrite Ht, <- app_assoc.
    reflexivity.
  - rewrite E. split; [discriminate | intros H; discriminate H].
Qed.

(** X15.  A handler acquires the semaphore exactly when its first read loop
    returned at least one byte: a client that sends nothing, or whose first
    [recv] raises, takes no slot. *)
Theorem semaphore_needs_a_request (fuel : nat) (h : ProxyHandler) (w : world) :
  In EAcquire (events_of (handle_client fuel h) w) <->
  exists d rest,
    recv_until CRLF EmptyString (client_rx w) = (Ok d, rest) /\
    truthy d = true.
Proof.
  destruct (recv_until CRLF EmptyString (client_rx w)) as [[d| |] rest] eqn:Er.
  - destruct (truthy d) eqn:Td.
    + split; [intros _; eauto|]. intros _.
      assert (Hs : exists body,
        trace (snd (handle_client fuel h w)) =
        (trace w ++ EAcquire :: body)%list).
      { unfold handle_client, finally, try_except, bind, read_until.
        simpl rx. rewrite Er, Td. cbv beta iota delta [negb].
        unfold with_semaphore, bind, finally. cbv beta iota zeta.
        set (w1 := emit EAcquire (set_rx Client rest w)).
        set (request_line := decode_ignore (first_line d)).
        destruct (emits_route fuel h d request_line w1) as [body [Eb _]].
        destruct (route fuel h d request_line w1) as [[[]| |] w2];
          simpl in Eb; simpl; rewrite Eb; simpl; rewrite <- !app_assoc;
          eexists; reflexivity. }
      destruct Hs as [body Hs]. rewrite (events_of_app _ _ _ Hs).
      left. reflexivity.
    + assert (E : handle_client fuel h w =
                  (Ok tt, emit (EClose Client) (set_rx Client rest w))).
      { unfold handle_client, finally, try_except, bind, read_until.
        simpl rx. rewrite Er, Td. reflexivity. }
      rewrite (events_of_run _ _ _ _ [EClose Client] E eq_refl).
      split.
      * intros [H|[]]; discriminate.
      * intros [d' [rest' [H T]]]. injection H as <- _. congruence.
  - assert (E : handle_client fuel h w =
                (Ok tt, emit (EClose Client) (set_rx Client rest w))).
    { unfold handle_client, finally, try_except, bind, read_until.
      simpl rx. rewrite Er. reflexivity. }
    rewrite (events_of_run _ _ _ _ [EClose Client] E eq_refl).
    split.
    + intros [H|[]]; discriminate.
    + intros [d' [rest' [H T]]]. discriminate.
  - assert (E : handle_client fuel h w = (OutOfFuel, set_rx Client rest w)).
    { unfold handle_client, finally, try_except, bind, read_until.
      simpl rx. rewrite Er. reflexivity. }
    assert (T : trace (set_rx Client rest w) = (trace w ++ [])%list)
      by (simpl; rewrite app_nil_r; reflexivity).
    rewrite (events_of_run _ _ _ _ [] E T).
    split.
    + intros [].
    + intros [d' [rest' [H _]]]. discriminate.
Qed.

Lemma final_holding_body h body tail b :
  Forall (handler_event h) body ->
  final_holding b (body ++ tail) = final_holding b tail.
Proof.
  induction 1 as [|e body He _ IH]; [reflexivity|].
  destruct e; simpl in *; tauto.
Qed.

Lemma run_shape_settles h r l :
  run_shape h r l -> r <> OutOfFuel -> final_holding false l = false.
Proof.
  intros [| |body Hb|body Hb] Hne; [reflexivity|congruence| |congruence].
  simpl. rewrite (final_holding_body h) by assumption. reflexivity.
Qed.

Lemma start_settles max_concurrent h conns :
  Forall (fun c => fst (handle_client (fst c) h (snd c)) <> OutOfFuel) conns ->
  settles (start max_concurrent h conns).
Proof.
  intros Hall. unfold settles, start. simpl.
  apply Forall_forall. intros t Ht. apply in_map_iff in Ht.
  destruct Ht as [[fuel w] [<- Hin]]. simpl.
  rewrite Forall_forall in Hall.
  exact (run_shape_settles _ _ _ (handle_client_events fuel h w)
           (Hall _ Hin)).
Qed.

Lemma step_settles s s' : step s s' -> settles s -> settles s'.
Proof.
  intros [v v' pre t t' post Hts] Hall. unfold settles in *. simpl in *.
  apply Forall_app in Hall. destruct Hall as [Hpre Hrest].
  inversion Hrest as [|? ? Ht Hpost]; subst.
  apply Forall_app. split; [assumption|]. constructor; [|assumption].
  destruct Hts as [v0 b rest|v0 b rest|v0 b e rest He]; simpl in *;
    try assumption.
  destruct e; simpl in *; try discriminate; assumption.
Qed.

Lemma reachable_settles s s' : settles s -> reachable s s' -> settles s'.
Proof.
  intros Hs Hr. induction Hr as [|s1 s2 _ IH Hstep]; [assumption|].
  exact (step_settles _ _ Hstep IH).
Qed.

Lemma holder_exists (s : system) :
  0 < count_holding s -> exists t, In t (threads s) /\ holding t = true.
Proof.
  unfold count_holding. intros H.
  destruct (filter holding (threads s)) as [|t l] eqn:E; [simpl in H; lia|].
  exists t. apply filter_In. rewrite E. left. reflexivity.
Qed.

Lemma thread_can_step (s : system) (t : thread) (e : event) (rest : list event) :
  In t (threads s) -> todo t = e :: rest ->
  e <> EAcquire \/ 0 < value s ->
  exists s', step s s'.
Proof.
  intros Hin Htodo Hok. destruct s as [v ths]. simpl in *.
  apply in_split in Hin. destruct Hin as [pre [post ->]].
  destruct t as [b td]. simpl in Htodo. subst td.
  destruct e.
  5: { destruct Hok as [Hok|Hok]; [congruence|].
       destruct v as [|v]; [lia|].
       eexists. apply step_thread. apply ts_acquire. }
  5: { eexists. apply step_thread. apply ts_release. }
  all: eexists; apply step_thread; apply ts_io; reflexivity.
Qed.

(** One step of a thread, by computation. *)
Ltac run_thread pre :=
  eapply reach_first;
  [ eapply (step_thread _ _ pre);
    first [ apply ts_acquire | apply ts_release | apply ts_io; reflexivity ]
  | ].

(** X17.  However the handler threads of any set of connections interleave,
    the number of handlers inside [with semaphore:] never exceeds the number
    [max_concurrent] the semaphore was created with, a handler whose next
    event touches the upstream proxy (dial, write, relay, close) is inside
    it, and every handler run that has returned, on a normal or an error
    path, released the semaphore exactly as often as it acquired it, which
    is at most once. *)
Theorem admission_bounded (max_concurrent : nat) (h : ProxyHandler)
  (conns : list (nat * world)) (s : system) :
  reachable (start max_concurrent h conns) s ->
  count_holding s <= max_concurrent /\
  (forall t e rest,
      In t (threads s) -> todo t = e :: rest ->
      is_upstream_event e = true -> holding t = true) /\
  (forall fuel w,
      fst (handle_client fuel h w) <> OutOfFuel ->
      let l := events_of (handle_client fuel h) w in
      count_event is_acquire l = count_event is_release l /\
      count_event is_acquire l <= 1).
Proof.
  intros Hr.
  destruct (reachable_balanced _ _ _ (start_balanced max_concurrent h conns) Hr)
    as [Hsum Hall].
  split; [lia | split].
  - intros t e rest Hin Htodo Hup.
    rewrite Forall_forall in Hall. specialize (Hall t Hin).
    rewrite Htodo in Hall. exact (bracketed_upstream _ _ _ Hall Hup).
  - intros fuel w Hne l.
    exact (run_shape_balanced _ _ _ (handle_client_events fuel h w) Hne).
Qed.

(** Two CONNECT requests and a semaphore of one: once the first handler has
    acquired it and dialled the upstream proxy, the counter is zero and the
    second is still at its [acquire]. *)
Lemma admission_bounded_witness :
  let w := fresh [RData ("CONNECT example.com:443 HTTP/1.1" ++ CRLFCRLF)]
                 [RData ("HTTP/1.1 407 Proxy Authentication Required"
                         ++ CRLFCRLF)] [] in
  let run := events_of (handle_client 1 example_handler) w in
  let s := {| value := 0;
              threads := [ {| holding := true; todo := tl (tl run) |};
                           {| holding := false; todo := run |} ] |} in
  reachable (start 1 example_handler [(1, w); (1, w)]) s /\
  count_holding s = 1 /\
  count_holding s <= 1.
Proof.
  intros w run s.
  assert (Hr : reachable (start 1 example_handler [(1, w); (1, w)]) s).
  { do 2 run_thread (@nil thread). apply reach_refl. }
  split; [exact Hr | split; [reflexivity|]].
  exact (proj1 (admission_bounded 1 example_handler _ s Hr)).
Defined.

(** X12.  The semaphore does not deadlock: with room for at least one
    handler and handler runs that all return, whenever some handler has
    something left to do, some handler can take its next step. *)
Theorem semaphore_does_not_deadlock (max_concurrent : nat) (h : ProxyHandler)
  (conns : list (nat * world)) (s : system) :
  0 < max_concurrent ->
  Forall (fun c => fst (handle_client (fst c) h (snd c)) <> OutOfFuel) conns ->
  reachable (start max_concurrent h conns) s ->
  (exists t, In t (threads s) /\ todo t <> []) ->
  exists s', step s s'.
Proof.
  intros Hmax Hret Hr [t [Hin Htodo]].
  destruct (reachable_balanced _ _ _
              (start_balanced max_concurrent h conns) Hr) as [Hsum Hall].
  pose proof (reachable_settles _ _ (start_settles max_concurrent h conns Hret)
                Hr) as Hset.
  destruct (todo t) as [|e rest] eqn:Et; [congruence|].
  destruct (Nat.eq_dec (value s) 0) as [Hv|Hv].
  - destruct (holder_exists s) as [t2 [Hin2 Hh2]]; [lia|].
    unfold settles in Hset. rewrite Forall_forall in Hall, Hset.
    specialize (Hall t2 Hin2). specialize (Hset t2 Hin2).
    rewrite Hh2 in Hall, Hset.
    destruct (todo t2) as [|e2 rest2] eqn:Et2; [discriminate|].
    apply (thread_can_step s t2 e2 rest2 Hin2 Et2).
    left. intros ->. discriminate.
  - apply (thread_can_step s t e rest Hin Et). right. lia.
Qed.

(** Two CONNECT requests that the upstream proxy refuses, and room for one
    handler: the first has taken the slot, the second is waiting at its
    [acquire] with the counter at zero. *)
Lemma semaphore_does_not_deadlock_witness :
  let w := fresh [RData ("CONNECT example.com:443 HTTP/1.1" ++ CRLFCRLF)]
                 [RData ("HTTP/1.1 407 Proxy Authentication Required"
                         ++ CRLFCRLF)] [] in
  let conns := [(1, w); (1, w)] in
  let run := events_of (handle_client 1 example_handler) w in
  let s := {| value := 0;
              threads := [ {| holding := true; todo := tl run |};
                           {| holding := false; todo := run |} ] |} in
  0 < 1 /\
  Forall (fun c => fst (handle_client (fst c) example_handler (snd c))
                   <> OutOfFuel) conns /\
  reachable (start 1 example_handler conns) s /\
  (exists t, In t (threads s) /\ todo t <> []) /\
  hd_error run = Some EAcquire /\
  exists s', step s s'.
Proof.
  intros w conns run s.
  assert (H1 : 0 < 1) by lia.
  assert (H2 : Forall (fun c => fst (handle_client (fst c) example_handler
                                       (snd c)) <> OutOfFuel) conns)
    by (repeat constructor; discriminate).
  assert (H3 : reachable (start 1 example_handler conns) s).
  { run_thread (@nil thread). apply reach_refl. }
  assert (H4 : exists t, In t (threads s) /\ todo t <> []).
  { exists {| holding := false; todo := run |}.
    split; [right; left; reflexivity | discriminate]. }
  split; [exact H1 | split; [exact H2 | split; [exact H3|]]].
  split; [exact H4 | split; [reflexivity|]].
  exact (semaphore_does_not_deadlock 1 example_handler conns s H1 H2 H3 H4).
Defined.

(** X13.  No slot is lost: when the handler runs all return, on whatever
    path, and every thread has finished, the semaphore is back at the value
    it was created with. *)
Theorem capacity_is_restored (max_concurrent : nat) (h : ProxyHandler)
  (conns : list (nat * world)) (s : system) :
  Forall (fun c => fst (handle_client (fst c) h (snd c)) <> OutOfFuel) conns ->
  reachable (start max_concurrent h conns) s ->
  Forall (fun t => todo t = []) (threads s) ->
  value s = max_concurrent.
Proof.
  intros Hret Hr Hdone.
  destruct (reachable_balanced _ _ _
              (start_balanced max_concurrent h conns) Hr) as [Hsum _].
  pose proof (reachable_settles _ _ (start_settles max_concurrent h conns Hret)
                Hr) as Hset.
  assert (Hz : count_holding s = 0).
  { unfold count_holding. unfold settles in Hset.
    induction (threads s) as [|t ths IH]; [reflexivity|].
    inversion Hdone as [|? ? Ht Hd]; subst.
    inversion Hset as [|? ? Hs1 Hs2]; subst.
    rewrite Ht in Hs1. simpl in Hs1. simpl. rewrite Hs1. auto. }
  lia.
Qed.

(** The same two connections, run to the end one after the other: the slot
    is taken and given back twice, and the counter is back at one. *)
Lemma capacity_is_restored_witness :
  let w := fresh [RData ("CONNECT example.com:443 HTTP/1.1" ++ CRLFCRLF)]
                 [RData ("HTTP/1.1 407 Proxy Authentication Required"
                         ++ CRLFCRLF)] [] in
  let conns := [(1, w); (1, w)] in
  let done := {| holding := false; todo := [] |} in
  let s := {| value := 1; threads := [done; done] |} in
  Forall (fun c => fst (handle_client (fst c) example_handler (snd c))
                   <> OutOfFuel) conns /\
  count_event is_acquire (events_of (handle_client 1 example_handler) w) = 1 /\
  reachable (start 1 example_handler conns) s /\
  Forall (fun t => todo t = []) (threads s) /\
  value s = 1.
Proof.
  intros w conns done s.
  assert (H1 : Forall (fun c => fst (handle_client (fst c) example_handler
                                       (snd c)) <> OutOfFuel) conns)
    by (repeat constructor; discriminate).
  assert (H2 : reachable (start 1 example_handler conns) s).
  { do 7 run_thread (@nil thread). do 7 run_thread [done]. apply reach_refl. }
  assert (H3 : Forall (fun t => todo t = []) (threads s))
    by (repeat constructor).
  split; [exact H1 | split; [reflexivity|]].
  split; [exact H2 | split; [exact H3|]].
  exact (capacity_is_restored 1 example_handler conns s H1 H2 H3).
Defined.

(** ** The life of the upstream socket *)

Lemma closes_last_emits {A} (m : M A) :
  emits not_upstream_close m -> closes_last m.
Proof.
  intros H w. destruct (H w) as [l [E P]]. exists l. auto.
Qed.

Lemma closes_last_close : closes_last (close Upstream).
Proof.
  intros w. exists []. split; [constructor|]. right. simpl. eauto.
Qed.

Lemma closes_last_bind {A B} (m : M A) (k : A -> M B) :
  emits not_upstream_close m -> (forall a, closes_last (k a)) ->
  closes_last (bind m k).
Proof.
  intros Hm Hk w. unfold bind. destruct (Hm w) as [l [El Pl]].
  destruct (m w) as [[a| |] w1]; simpl in El;
    try (exists l; split; [exact Pl | left; exact El]).
  destruct (Hk a w1) as [l2 [P2 [E2|[E2 R2]]]];
    exists (l ++ l2)%list; (split; [apply Forall_app; auto|]).
  - left. rewrite E2, El, app_assoc. reflexivity.
  - right. split; [|exact R2].
    rewrite E2, El, <- !app_assoc. reflexivity.
Qed.

Lemma closes_last_try (m h : M unit) :
  closes_last m -> emits not_upstream_close h -> closes_last (try_except m h).
Proof.
  intros Hm Hh w. unfold try_except.
  destruct (Hm w) as [l [Pl Hl]].
  destruct (m w) as [[[]| |] w1] eqn:E; simpl in Hl.
  - exists l. split; [exact Pl | exact Hl].
  - destruct Hl as [El|[_ [a Ha]]]; [|discriminate].
    destruct (Hh w1) as [l2 [E2 P2]].
    exists (l ++ l2)%list. split; [apply Forall_app; auto|].
    left. rewrite E2, El, app_assoc. reflexivity.
  - exists l. split; [exact Pl | exact Hl].
Qed.

Lemma closes_last_handlers (fuel : nat) (h : ProxyHandler)
  (request_line request_data : string) :
  closes_last (handle_connect fuel h request_line) /\
  closes_last (handle_http h request_data).
Proof.
  assert (Hs : forall s d, not_upstream_close (ESend s d))
    by (intros s d; discriminate).
  assert (Hbg : emits not_upstream_close answer_bad_gateway)
    by (apply emits_answer_bad_gateway; auto).
  split.
  - unfold handle_connect. apply closes_last_try; [|exact Hbg].
    destruct (List.length (split_ws request_line) <? 2)%nat;
      [apply closes_last_emits, emits_sendall; auto|].
    apply closes_last_bind; [apply emits_dial; discriminate|]. intros _.
    apply closes_last_bind; [apply emits_sendall; auto|]. intros _.
    apply closes_last_bind; [apply emits_read_until|]. intros response.
    apply closes_last_bind; [apply emits_sendall; auto|]. intros _.
    apply closes_last_bind; [|intros _; apply closes_last_close].
    destruct (contains "200" (first_line response));
      [apply emits_relay_data; [discriminate | auto] | apply emits_ret].
  - unfold handle_http. apply closes_last_try; [|exact Hbg].
    apply closes_last_bind; [apply emits_dial; discriminate|]. intros _.
    apply closes_last_bind; [apply emits_sendall; auto|]. intros _.
    apply closes_last_bind; [|intros _; apply closes_last_close].
    intros w.
    apply (emits_forward_response not_upstream_close (upstream_rx w)). auto.
Qed.

Lemma closes_last_events {A} (m : M A) (w : world) :
  closes_last m ->
  exists l,
    ~ In (EClose Upstream) l /\
    (events_of m w = l \/
     (events_of m w = (l ++ [EClose Upstream])%list /\
      exists a, fst (m w) = Ok a)).
Proof.
  intros H. destruct (H w) as [l [P [E|[E R]]]]; exists l;
    (split; [intros Hin; rewrite Forall_forall in P;
             exact (P _ Hin eq_refl)|]).
  - left. exact (events_of_app _ _ _ E).
  - right. split; [exact (events_of_app _ _ _ E) | exact R].
Qed.

(** X16.  Both request handlers close the upstream socket at most once,
    only when they return normally, and do nothing after it. *)
Theorem upstream_closed_once_and_last (fuel : nat) (h : ProxyHandler)
  (request_line request_data : string) (w : world) :
  (exists l,
      ~ In (EClose Upstream) l /\
      (events_of (handle_connect fuel h request_line) w = l \/
       (events_of (handle_connect fuel h request_line) w =
        (l ++ [EClose Upstream])%list /\
        exists a, fst (handle_connect fuel h request_line w) = Ok a))) /\
  (exists l,
      ~ In (EClose Upstream) l /\
      (events_of (handle_http h request_data) w = l \/
       (events_of (handle_http h request_data) w =
        (l ++ [EClose Upstream])%list /\
        exists a, fst (handle_http h request_data w) = Ok a))).
Proof.
  destruct (closes_last_handlers fuel h request_line request_data) as [Hc Hh].
  split; apply closes_last_events; assumption.
Qed.

